(** * Space Invaders: the state-transition engine of [spaceinvaders.ts]

    A shallow embedding of the pure core of the game: the utility functions,
    the world initialiser [INITIAL_STATE], the twelve pipeline stages and
    [transition], followed by the properties of the pipeline.

    Modelling conventions.
    - A JavaScript [number] that holds a geometric quantity (positions,
      sizes, velocities) is an exact rational ([Q]): rounding, NaN and the
      infinities of IEEE doubles are not modelled.  The counters [level],
      [score], [ammo] and [ammoRegenTimer], which only ever receive integer
      constants and integer increments, are integers ([Z]).
    - A JavaScript string is a [string]: an ASCII character is the character
      of its code and any other character is held as its UTF-8 bytes, so that
      equality, concatenation and the search in the ASCII alphabet are those
      of JavaScript.  [simpleHash] reads character codes, which is exact on
      ASCII text, the text of the serialised states of the game.
    - Arrays are lists; [filter], [map], [some] and [reduce] are [filter],
      [map], [existsb] and [fold_left].
    - [JSON.stringify] on states and aliens, [toUpperCase] on strings and
      the screen offset of the canvas come from the host (browser): they are
      parameters of the development, and nothing is assumed about them.  The
      one statement that needs to know what [toUpperCase] does to ASCII keys
      says so in a hypothesis. *)

From Stdlib Require Import ZArith QArith Qminmax Qabs Lqa Lia.
From Stdlib Require Import Bool List Ascii String DecimalString.
From Stdlib Require DecimalPos DecimalZ.
Import ListNotations.

Open Scope string_scope.
Open Scope Z_scope.
Open Scope Q_scope.

(** ** Utility class and functions *)

(** The comparison operators of JavaScript on numbers, as booleans. *)
Definition Qleb (a b : Q) : bool := Qle_bool a b.
Definition Qltb (a b : Q) : bool := negb (Qle_bool b a).
Definition Qgtb (a b : Q) : bool := Qltb b a.

(** Vec2 is an immutable 2 dimensional vector class. *)
Module Vec2.

Record t : Type := new { x : Q; y : Q }.

(** Make x and y positive. *)
Definition abs (v : t) : t := new (Qabs (x v)) (Qabs (y v)).

(** Scale x and y by s. *)
Definition scale (v : t) (s : Q) : t := new (x v * s) (y v * s).

(** Return the result of vector addition with v. *)
Definition add (u v : t) : t := new (x u + x v) (y u + y v).

End Vec2.

(** range(n) returns an array with values [0..n-1]. *)
Definition range (n : nat) : list nat := seq 0 n.

(** cartesian(s, t) does a cartesian product between array s and array t. *)
Definition cartesian {S T : Type} (s : list S) (t : list T) : list (S * T) :=
  fold_left (fun acc se => (acc ++ map (fun te => (se, te)) t)%list) s [].

(** 32-bit integers are kept as their unsigned residue modulo 2^32; the
    bitwise operators and [Math.imul] act on the low 32 bits, so the signed
    and the unsigned reading agree on them. *)
Definition ToUint32 (z : Z) : Z := (z mod 2 ^ 32)%Z.

Definition imul (a b : Z) : Z := ToUint32 (a * b).

Definition charCodeAt0 (c : ascii) : Z := Z.of_N (N_of_ascii c).

(** simpleHash is a simple, insecure, fast hash function.
    Returns an integer in the range [0..2^32). *)
Definition simpleHash (s : string) : Z :=
  let hash :=
    fold_left (fun acc x => imul (Z.lxor acc (charCodeAt0 x)) 2654435761)
              (list_ascii_of_string s) 0xdeadbeef%Z in
  ToUint32 (Z.lxor hash (Z.shiftr hash 16)).

(** Represent an abstract rectangle type: anything with a position, a width
    and a height. *)
Class Rectangle (A : Type) : Type := {
  pos : A -> Vec2.t;
  width : A -> Q;
  height : A -> Q
}.

(** rectangleRectangleCollide evaluates: Rectangle r1 and Rectangle r2
    overlaps. *)
Definition rectangleRectangleCollide {A B : Type} `{Rectangle A} `{Rectangle B}
    (r1 : A) (r2 : B) : bool :=
  Qgtb (Vec2.x (pos r1) + width r1) (Vec2.x (pos r2)) &&
  Qltb (Vec2.x (pos r1)) (Vec2.x (pos r2) + width r2) &&
  Qgtb (Vec2.y (pos r1) + height r1) (Vec2.y (pos r2)) &&
  Qltb (Vec2.y (pos r1)) (Vec2.y (pos r2) + height r2).

(** ** Types *)

Definition Character : Type := string.

Inductive BulletShooter : Type := PLAYER | ALIEN.

Definition BulletShooter_eqb (a b : BulletShooter) : bool :=
  match a, b with
  | PLAYER, PLAYER | ALIEN, ALIEN => true
  | _, _ => false
  end.

Record Player : Type := mkPlayer {
  player_pos : Vec2.t;
  player_width : Q;
  player_height : Q
}.

Record Alien : Type := mkAlien {
  alien_pos : Vec2.t;
  alien_width : Q;
  alien_height : Q;
  alien_character : Character
}.

Record Bullet : Type := mkBullet {
  shooter : BulletShooter;   (* Who shoots the bullet. *)
  bullet_pos : Vec2.t;
  vel : Vec2.t;
  bullet_width : Q;
  bullet_height : Q;
  character : Character
}.

Record Shield : Type := mkShield {
  shield_pos : Vec2.t;
  shield_width : Q;
  shield_height : Q
}.

#[export] Instance Player_Rectangle : Rectangle Player :=
  {| pos := player_pos; width := player_width; height := player_height |}.
#[export] Instance Alien_Rectangle : Rectangle Alien :=
  {| pos := alien_pos; width := alien_width; height := alien_height |}.
#[export] Instance Bullet_Rectangle : Rectangle Bullet :=
  {| pos := bullet_pos; width := bullet_width; height := bullet_height |}.
#[export] Instance Shield_Rectangle : Rectangle Shield :=
  {| pos := shield_pos; width := shield_width; height := shield_height |}.

(** Immutable game state. *)
Record State : Type := mkState {
  gameRunning : bool;
  level : Z;
  player : Player;
  aliens : list Alien;
  alienVel : Vec2.t;          (* All aliens share this same velocity. *)
  bullets : list Bullet;
  shields : list Shield;
  score : Z;
  ammo : Z;
  ammoRegenTimer : Z;         (* Number of frames until ammo regeneration. *)
  message : string
}.

Record Mouse : Type := mkMouse { mouse_pos : Vec2.t }.

Record Keyboard : Type := mkKeyboard { key : string }.

(** Input is paired with each game frame; both properties are optional. *)
Record Input : Type := mkInput {
  mouse : option Mouse;
  keyboard : option Keyboard
}.

(** Object spread with overridden properties: [{...state, f: v}]. *)
Definition with_gameRunning (s : State) (v : bool) : State :=
  mkState v (level s) (player s) (aliens s) (alienVel s) (bullets s)
          (shields s) (score s) (ammo s) (ammoRegenTimer s) (message s).
Definition with_level (s : State) (v : Z) : State :=
  mkState (gameRunning s) v (player s) (aliens s) (alienVel s) (bullets s)
          (shields s) (score s) (ammo s) (ammoRegenTimer s) (message s).
Definition with_player (s : State) (v : Player) : State :=
  mkState (gameRunning s) (level s) v (aliens s) (alienVel s) (bullets s)
          (shields s) (score s) (ammo s) (ammoRegenTimer s) (message s).
Definition with_aliens (s : State) (v : list Alien) : State :=
  mkState (gameRunning s) (level s) (player s) v (alienVel s) (bullets s)
          (shields s) (score s) (ammo s) (ammoRegenTimer s) (message s).
Definition with_alienVel (s : State) (v : Vec2.t) : State :=
  mkState (gameRunning s) (level s) (player s) (aliens s) v (bullets s)
          (shields s) (score s) (ammo s) (ammoRegenTimer s) (message s).
Definition with_bullets (s : State) (v : list Bullet) : State :=
  mkState (gameRunning s) (level s) (player s) (aliens s) (alienVel s) v
          (shields s) (score s) (ammo s) (ammoRegenTimer s) (message s).
Definition with_shields (s : State) (v : list Shield) : State :=
  mkState (gameRunning s) (level s) (player s) (aliens s) (alienVel s)
          (bullets s) v (score s) (ammo s) (ammoRegenTimer s) (message s).
Definition with_score (s : State) (v : Z) : State :=
  mkState (gameRunning s) (level s) (player s) (aliens s) (alienVel s)
          (bullets s) (shields s) v (ammo s) (ammoRegenTimer s) (message s).
Definition with_ammo (s : State) (v : Z) : State :=
  mkState (gameRunning s) (level s) (player s) (aliens s) (alienVel s)
          (bullets s) (shields s) (score s) v (ammoRegenTimer s) (message s).
Definition with_ammoRegenTimer (s : State) (v : Z) : State :=
  mkState (gameRunning s) (level s) (player s) (aliens s) (alienVel s)
          (bullets s) (shields s) (score s) (ammo s) v (message s).
Definition with_message (s : State) (v : string) : State :=
  mkState (gameRunning s) (level s) (player s) (aliens s) (alienVel s)
          (bullets s) (shields s) (score s) (ammo s) (ammoRegenTimer s) v.

(** ** Constants *)

Definition FRAME_TIME : Z := 10.   (* Time between frames in ms. *)
Definition ABC : string := "ABCDEFGHIJKLMNOPQRSTUVWXYZ".

Definition CANVAS_WIDTH : Q := 600.
Definition CANVAS_HEIGHT : Q := 600.

Definition PLAYER_POS_INIT : Vec2.t := Vec2.new 270 540.
Definition PLAYER_WIDTH : Q := 48.
Definition PLAYER_HEIGHT : Q := 32.

Definition ALIEN_WIDTH : Q := 24.
Definition ALIEN_HEIGHT : Q := 20.
Definition ALIEN_SPACING : Vec2.t := Vec2.new 64 48.
Definition ALIEN_DROP_AMOUNT : Q := 30.   (* Drop amount when aliens hits wall. *)
Definition ALIEN_ROWS : nat := 4.
Definition ALIEN_COLS : nat := 6.
Definition ALIEN_POS_INIT : Vec2.t := Vec2.new 10 10.
Definition ALIEN_VEL_INIT : Vec2.t := Vec2.new 1 0.
Definition ALIEN_VEL_INC : Vec2.t := Vec2.new (5 # 10) (1 # 10).
Definition ALIEN_SHOOT_PROB : Q := 1 # 1000.

Definition BULLET_WIDTH : Q := 14.
Definition BULLET_HEIGHT : Q := 14.
Definition BULLET_SPEED : Q := 3.   (* unit: pixel per FRAME_TIME. *)

Definition SHIELD_COUNT : nat := 4.
Definition SHIELD_POS : Vec2.t := Vec2.new 0 500.
Definition SHIELD_SPACING : Q := 140.
Definition SHIELD_WIDTH : Q := 80.
Definition SHIELD_HEIGHT : Q := 32.
Definition SHIELD_HEIGHT_REDUCTION : Q := 2.

Definition SCORE_SHOOT_DECREMENT : Z := 20.
Definition SCORE_ALIEN_KILL : Z := 100.
Definition SCORE_ALIEN_KILL_CHAR_MATCH : Z := 400.

Definition AMMO_MAX : Z := 20.
Definition AMMO_REGEN_AMOUNT : Z := 4.
Definition AMMO_REGEN_TIMER : Z := (1000 / FRAME_TIME)%Z.

(** [String(n)] for an integer [n]: its decimal numeral. *)
Definition String_of_number (n : Z) : string :=
  NilZero.string_of_int (Z.to_int n).

Definition MESSAGE_INIT : string := "Press [Enter] to play.".
Definition MESSAGE_SCORE (score : Z) : string :=
  "Oh no. Score: " ++ String_of_number score ++ ". " ++ MESSAGE_INIT.

(** [ABC[k]]: the one-letter string at index [k]; the empty string stands for
    [undefined] outside the alphabet. *)
Definition ABC_at (k : Z) : Character := substring (Z.to_nat k) 1 ABC.

Definition ABC_length : Z := Z.of_nat (String.length ABC).

(** [JSON.stringify([i, j])] for two array indices. *)
Definition JSON_stringify_pair (i j : nat) : string :=
  "[" ++ NilZero.string_of_uint (Nat.to_uint i) ++ ","
      ++ NilZero.string_of_uint (Nat.to_uint j) ++ "]".

Definition Q_of_nat (n : nat) : Q := inject_Z (Z.of_nat n).

(** INITIAL_STATE initialise game state based on a seed. *)
Definition INITIAL_STATE (seed : string) : State :=
  {| gameRunning := false;
     level := 1;
     player := {| player_pos := PLAYER_POS_INIT;
                  player_width := PLAYER_WIDTH;
                  player_height := PLAYER_HEIGHT |};
     aliens :=
       map (fun '(i, j) =>
              {| alien_pos :=
                   Vec2.new
                     (Vec2.x ALIEN_POS_INIT + Q_of_nat j * Vec2.x ALIEN_SPACING)
                     (Vec2.y ALIEN_POS_INIT + Q_of_nat i * Vec2.y ALIEN_SPACING);
                 alien_width := ALIEN_WIDTH;
                 alien_height := ALIEN_HEIGHT;
                 alien_character :=
                   ABC_at (simpleHash (seed ++ JSON_stringify_pair i j)
                             mod ABC_length) |})
           (cartesian (range ALIEN_ROWS) (range ALIEN_COLS));
     alienVel := ALIEN_VEL_INIT;
     bullets := [];
     shields :=
       map (fun i =>
              let shieldGap := SHIELD_SPACING - SHIELD_WIDTH in
              let totalShieldWidth :=
                Q_of_nat SHIELD_COUNT * SHIELD_SPACING - shieldGap in
              let OFFSET := CANVAS_WIDTH / 2 - totalShieldWidth / 2 in
              {| shield_pos :=
                   Vec2.new
                     (Vec2.x SHIELD_POS + Q_of_nat i * SHIELD_SPACING + OFFSET)
                     (Vec2.y SHIELD_POS);
                 shield_width := SHIELD_WIDTH;
                 shield_height := SHIELD_HEIGHT |})
           (range SHIELD_COUNT);
     score := 0;
     ammo := AMMO_MAX;
     ammoRegenTimer := AMMO_REGEN_TIMER;
     message := MESSAGE_INIT |}.

(** ** State transitions *)

(** What [toUpperCase] does to a string of ASCII characters: the letters a-z
    move to A-Z and nothing else changes.  On other characters the host's
    [toUpperCase] follows the Unicode tables, which are not modelled; the
    examples, whose keys are ASCII, run the pipeline with this function. *)
Definition toUpperCase_ascii (c : ascii) : ascii :=
  let n := nat_of_ascii c in
  if (97 <=? n)%nat && (n <=? 122)%nat then ascii_of_nat (n - 32) else c.

Fixpoint toUpperCase_ASCII (s : string) : string :=
  match s with
  | EmptyString => EmptyString
  | String c s' => String (toUpperCase_ascii c) (toUpperCase_ASCII s')
  end.

(** The string is made of ASCII characters (code units below 128). *)
Definition isASCII (s : string) : bool :=
  forallb (fun c => (nat_of_ascii c <? 128)%nat) (list_ascii_of_string s).

(** [s.includes(sub)]: [sub] occurs in [s] as a contiguous substring. *)
Definition includes (s sub : string) : bool :=
  match index 0 sub s with
  | Some _ => true
  | None => false
  end.

(** ** A serialiser to run the pipeline with

    The pipeline is parametric in [JSON.stringify]; to evaluate it on concrete
    states the examples use this one.  It writes the text [JSON.stringify]
    produces for a state whose numbers are integers and whose strings need no
    escaping; a number that is not an integer is written as a fraction. *)
Module Json.

Definition dq : string := String (ascii_of_nat 34) EmptyString.

Definition str (s : string) : string := dq ++ s ++ dq.

Definition field (k v : string) : string := str k ++ ":" ++ v.

Definition obj (fields : list string) : string :=
  "{" ++ String.concat "," fields ++ "}".

Definition arr (items : list string) : string :=
  "[" ++ String.concat "," items ++ "]".

Definition int (n : Z) : string := NilZero.string_of_int (Z.to_int n).

Definition num (q : Q) : string :=
  let r := Qred q in
  if Pos.eqb (Qden r) 1 then int (Qnum r)
  else int (Qnum r) ++ "/" ++ int (Zpos (Qden r)).

Definition bool (b : bool) : string := if b then "true" else "false".

Definition vec2 (v : Vec2.t) : string :=
  obj [field "x" (num (Vec2.x v)); field "y" (num (Vec2.y v))].

Definition alien (a : Alien) : string :=
  obj [field "pos" (vec2 (pos a)); field "width" (num (width a));
       field "height" (num (height a));
       field "character" (str (alien_character a))].

Definition bullet (b : Bullet) : string :=
  obj [field "shooter"
         (str match shooter b with PLAYER => "PLAYER" | ALIEN => "ALIEN" end);
       field "pos" (vec2 (pos b)); field "vel" (vec2 (vel b));
       field "width" (num (width b)); field "height" (num (height b));
       field "character" (str (character b))].

Definition rect {A : Type} `{Rectangle A} (r : A) : string :=
  obj [field "pos" (vec2 (pos r)); field "width" (num (width r));
       field "height" (num (height r))].

Definition state (s : State) : string :=
  obj [field "gameRunning" (bool (gameRunning s));
       field "level" (int (level s));
       field "player" (rect (player s));
       field "aliens" (arr (map alien (aliens s)));
       field "alienVel" (vec2 (alienVel s));
       field "bullets" (arr (map bullet (bullets s)));
       field "shields" (arr (map rect (shields s)));
       field "score" (int (score s));
       field "ammo" (int (ammo s));
       field "ammoRegenTimer" (int (ammoRegenTimer s));
       field "message" (str (message s))].

End Json.

Section Transition.

(** What the host provides. *)
Variable CANVAS_POS_X : Q.
Variable JSON_stringify_state : State -> string.
Variable JSON_stringify_alien : Alien -> string.
Variable toUpperCase : string -> string.

(** playerShoot creates a bullet at the player's position.
    And decreases score by SCORE_SHOOT_DECREMENT. *)
Definition playerShoot (state : State) (input : Input) : State :=
  match keyboard input with
  | None => state
  | Some kb =>
      let char := toUpperCase (key kb) in
      (* Only accept keys in ABC. *)
      if negb (includes ABC char) then state
      (* No ammo, no shooting. *)
      else if (ammo state <=? 0)%Z then state
      else
        (* Place bullet in-front of player. *)
        let bulletPosX :=
          Vec2.x (pos (player state)) + width (player state) / 2
          - BULLET_WIDTH / 2 in
        let bulletPosY := Vec2.y (pos (player state)) in
        let bullet :=
          {| shooter := PLAYER;
             bullet_pos := Vec2.new bulletPosX bulletPosY;
             vel := Vec2.new 0 (- BULLET_SPEED);
             bullet_width := BULLET_WIDTH;
             bullet_height := BULLET_HEIGHT;
             character := char |} in
        let bullets' := (bullets state ++ [bullet])%list in
        with_score
          (with_ammo (with_bullets state bullets') (ammo state - 1)%Z)
          (score state - SCORE_SHOOT_DECREMENT)%Z
  end.

(** alienShoot creates a Bullet from each alien with probability
    ALIEN_SHOOT_PROB. *)
Definition alienShoot (state : State) (input : Input) : State :=
  let shootingAliens :=
    filter (fun alien =>
              let pseudoRandom :=
                inject_Z (simpleHash (JSON_stringify_state state ++
                                      JSON_stringify_alien alien))
                / inject_Z (2 ^ 32) in
              Qltb pseudoRandom ALIEN_SHOOT_PROB)
           (aliens state) in
  let alienBullets :=
    map (fun alien =>
           let pos' :=
             Vec2.new
               (Vec2.x (pos alien) + width alien - BULLET_WIDTH / 2)
               (Vec2.y (pos alien) + height alien - BULLET_HEIGHT) in
           let pseudoRandomInt :=
             simpleHash (JSON_stringify_state state ++
                         JSON_stringify_alien alien) in
           {| shooter := ALIEN;
              bullet_pos := pos';
              vel := Vec2.new 0 BULLET_SPEED;
              bullet_width := BULLET_WIDTH;
              bullet_height := BULLET_HEIGHT;
              character := ABC_at (pseudoRandomInt mod ABC_length) |})
        shootingAliens in
  with_bullets state (bullets state ++ alienBullets)%list.

(** movePlayer updates player position. *)
Definition movePlayer (state : State) (input : Input) : State :=
  match mouse input with
  | None => state
  | Some m =>
      (* Set cursor position relative to canvas. *)
      let cursorX := Vec2.x (mouse_pos m) - CANVAS_POS_X in
      (* Keep player within canvas bound. *)
      let playerPosX :=
        Qmin (Qmax 0 (cursorX - width (player state) / 2))
             (CANVAS_WIDTH - width (player state)) in
      let player' :=
        {| player_pos := Vec2.new playerPosX (Vec2.y (pos (player state)));
           player_width := player_width (player state);
           player_height := player_height (player state) |} in
      with_player state player'
  end.

(** Left-most and right-most alien horizontal position, as the reduce over
    the aliens computes them from the seed [CANVAS_WIDTH, 0]. *)
Definition leftRightMost (al : list Alien) : Q * Q :=
  fold_left (fun '(l, r) alien =>
               (Qmin l (Vec2.x (pos alien)), Qmax r (Vec2.x (pos alien))))
            al (CANVAS_WIDTH, 0).

(** moveAlien updates aliens positions and velocities. *)
Definition moveAlien (state : State) (_ : Input) : State :=
  let '(leftMost, rightMost) := leftRightMost (aliens state) in
  (* Check if aliens hit the walls. *)
  let hitLeftWall := Qltb (leftMost + Vec2.x (alienVel state)) 0 in
  let hitRightWall :=
    Qgtb (rightMost + ALIEN_WIDTH + Vec2.x (alienVel state)) CANVAS_WIDTH in
  (* Reflect horizontal direction if hit either wall. *)
  let alienVel' :=
    if hitLeftWall || hitRightWall
    then Vec2.new (-1 * Vec2.x (alienVel state)) (Vec2.y (alienVel state))
    else alienVel state in
  (* Offset such that horizontal position is precisely on the wall. *)
  let alienPosXOffset :=
    if hitLeftWall then 0 - leftMost
    else if hitRightWall then CANVAS_WIDTH - ALIEN_WIDTH - rightMost
    else Vec2.x alienVel' in
  (* Update position of each alien. *)
  let aliens' :=
    map (fun alien =>
           let alienPosX := Vec2.x (pos alien) + alienPosXOffset in
           (* Translate alien down if hits the wall. *)
           let alienPosY :=
             if hitLeftWall || hitRightWall
             then Vec2.y (pos alien) + ALIEN_DROP_AMOUNT
             else Vec2.y (pos alien) + Vec2.y alienVel' in
           {| alien_pos := Vec2.new alienPosX alienPosY;
              alien_width := alien_width alien;
              alien_height := alien_height alien;
              alien_character := alien_character alien |})
        (aliens state) in
  with_alienVel (with_aliens state aliens') alienVel'.

(** moveBullet updates bullet positions. *)
Definition moveBullet (state : State) (_ : Input) : State :=
  let bullets' :=
    map (fun b =>
           {| shooter := shooter b;
              bullet_pos := Vec2.add (pos b) (vel b);
              vel := vel b;
              bullet_width := bullet_width b;
              bullet_height := bullet_height b;
              character := character b |})
        (bullets state) in
  with_bullets state bullets'.

(** removeBullet removes out of screen bullets. *)
Definition removeBullet (state : State) (_ : Input) : State :=
  with_bullets state
    (filter (fun b => Qgtb (Vec2.y (pos b)) 0) (bullets state)).

(** playerAlienCollision ends the game if the player collides with any
    alien. *)
Definition playerAlienCollision (state : State) (_ : Input) : State :=
  let collide :=
    existsb (fun a => rectangleRectangleCollide (player state) a)
            (aliens state) in
  if negb collide then state
  else with_message (with_gameRunning state false)
                    (MESSAGE_SCORE (score state)).

(** playerBulletCollision ends the game if the player collides with any
    alien bullet. *)
Definition playerBulletCollision (state : State) (_ : Input) : State :=
  let collide :=
    existsb (fun b => negb (BulletShooter_eqb (shooter b) PLAYER) &&
                      rectangleRectangleCollide (player state) b)
            (bullets state) in
  if negb collide then state
  else with_message (with_gameRunning state false)
                    (MESSAGE_SCORE (score state)).

(** alienBulletCollision removes alien and bullet that collided and
    increments score. *)
Definition alienBulletCollision (state : State) (_ : Input) : State :=
  (* Only keep aliens that dont collide with any bullets. *)
  let aliens' :=
    filter (fun a =>
              negb (existsb (fun b =>
                               negb (BulletShooter_eqb (shooter b) ALIEN) &&
                               rectangleRectangleCollide a b)
                            (bullets state)))
           (aliens state) in
  (* Only keep bullets that dont collide with any aliens. *)
  let bullets' :=
    filter (fun b =>
              negb (existsb (fun a =>
                               negb (BulletShooter_eqb (shooter b) ALIEN) &&
                               rectangleRectangleCollide a b)
                            (aliens state)))
           (bullets state) in
  (* Calculate new score. *)
  let score' :=
    fold_left (fun scoreA a =>
                 fold_left (fun scoreB b =>
                              if negb (BulletShooter_eqb (shooter b) ALIEN) &&
                                 rectangleRectangleCollide a b
                              then if String.eqb (alien_character a)
                                                 (character b)
                                   then (scoreB + SCORE_ALIEN_KILL_CHAR_MATCH)%Z
                                   else (scoreB + SCORE_ALIEN_KILL)%Z
                              else scoreB)
                           (bullets state) scoreA)
              (aliens state) (score state) in
  with_score (with_bullets (with_aliens state aliens') bullets') score'.

(** shieldBulletCollision reduces height of shield for each bullet it
    collides with. *)
Definition shieldBulletCollision (state : State) (_ : Input) : State :=
  (* Reduce shield height on collision with bullet. *)
  let reducedShields :=
    map (fun s =>
           (* Number of hits from player's bullet. *)
           let players :=
             fold_left (fun (acc : Q) (b : Bullet) =>
                          if rectangleRectangleCollide s b &&
                             BulletShooter_eqb (shooter b) PLAYER
                          then acc + 1 else acc)
                       (bullets state) 0 in
           (* Number of hits from alien's bullet. *)
           let aliens_ :=
             fold_left (fun (acc : Q) (b : Bullet) =>
                          if rectangleRectangleCollide s b &&
                             BulletShooter_eqb (shooter b) ALIEN
                          then acc + 1 else acc)
                       (bullets state) 0 in
           {| shield_pos :=
                Vec2.new (Vec2.x (pos s))
                         (Vec2.y (pos s) + aliens_ * SHIELD_HEIGHT_REDUCTION);
              shield_width := shield_width s;
              shield_height :=
                height s - (players + aliens_) * SHIELD_HEIGHT_REDUCTION |})
        (shields state) in
  (* Remove shields with no height. *)
  let shields' := filter (fun s => Qgtb (height s) 0) reducedShields in
  (* Only keep bullets that dont collide with any shield. *)
  let bullets' :=
    filter (fun b =>
              negb (existsb (fun s => rectangleRectangleCollide s b)
                            (shields state)))
           (bullets state) in
  with_bullets (with_shields state shields') bullets'.

(** noMoreAliens returns new level state if there are no more aliens. *)
Definition noMoreAliens (state : State) (_ : Input) : State :=
  let aliensExists :=
    existsb (fun a =>
               Qleb (Vec2.y (pos a))
                    (Vec2.y (pos (player state)) + height (player state)))
            (aliens state) in
  if aliensExists then state
  else
    with_alienVel
      (with_aliens
         (with_level state (level state + 1)%Z)
         (aliens (INITIAL_STATE (JSON_stringify_state state))))
      (Vec2.add (Vec2.abs (alienVel state)) ALIEN_VEL_INC).

(** ammoRegen increments ammo by AMMO_REGEN_AMOUNT but no more than
    AMMO_MAX. *)
Definition ammoRegen (state : State) (_ : Input) : State :=
  if (ammoRegenTimer state >? 0)%Z then
    let ammoRegenTimer' := (ammoRegenTimer state - 1)%Z in
    with_ammoRegenTimer state ammoRegenTimer'
  else
    with_ammoRegenTimer
      (with_ammo state (Z.min AMMO_MAX (ammo state + AMMO_REGEN_AMOUNT)))
      AMMO_REGEN_TIMER.

(** The stages, in the order the pipeline applies them. *)
Definition stages : list (State -> Input -> State) :=
  [ playerShoot; alienShoot; movePlayer; moveAlien; moveBullet;
    removeBullet; playerAlienCollision; playerBulletCollision;
    alienBulletCollision; shieldBulletCollision; noMoreAliens; ammoRegen ].

(** [input.keyboard?.key === "Enter"]. *)
Definition pressedEnter (input : Input) : bool :=
  match keyboard input with
  | Some kb => String.eqb (key kb) "Enter"
  | None => false
  end.

(** transition returns the next state given some state and input. *)
Definition transition (state : State) (input : Input) : State :=
  (* Start the game when user presses [Enter] key. *)
  if negb (gameRunning state) && pressedEnter input then
    with_gameRunning (INITIAL_STATE (JSON_stringify_state state)) true
  (* Return early so user cannot modify state if game is not running. *)
  else if negb (gameRunning state) then state
  else fold_left (fun s t => t s input) stages state.

(** The states the running program goes through: the scan of [transition]
    over the input stream, from the initial world with the empty seed. *)
Inductive reachable : State -> Prop :=
| reachable_init : reachable (INITIAL_STATE EmptyString)
| reachable_step (s : State) (i : Input) :
    reachable s -> reachable (transition s i).

(** ** Vocabulary of the statements, and concrete states for the examples *)

Definition no_input : Input := {| mouse := None; keyboard := None |}.

Definition key_input (k : string) : Input :=
  {| mouse := None; keyboard := Some {| key := k |} |}.

(** The initial world, started. *)
Definition running_world : State :=
  with_gameRunning (INITIAL_STATE EmptyString) true.

(** A running world whose only alien has gone past the player: the player's
    bottom edge is at 540 + 32 = 572, the alien is at y = 600. *)
Definition alien_past_player : State :=
  with_aliens running_world
    [ {| alien_pos := Vec2.new 100 600; alien_width := ALIEN_WIDTH;
         alien_height := ALIEN_HEIGHT; alien_character := "A" |} ].

(** The bottom edge of the player. *)
Definition playerBottom (s : State) : Q :=
  Vec2.y (pos (player s)) + height (player s).

(** What the level-up branch of noMoreAliens builds from a state. *)
Definition nextLevel (s : State) : State :=
  {| gameRunning := gameRunning s;
     level := (level s + 1)%Z;
     player := player s;
     aliens := aliens (INITIAL_STATE (JSON_stringify_state s));
     alienVel := Vec2.new (Qabs (Vec2.x (alienVel s)) + (5 # 10))
                          (Qabs (Vec2.y (alienVel s)) + (1 # 10));
     bullets := bullets s;
     shields := shields s;
     score := score s;
     ammo := ammo s;
     ammoRegenTimer := ammoRegenTimer s;
     message := message s |}.

(** ASCII letters. *)
Definition isUpperLetter (c : ascii) : bool :=
  let n := nat_of_ascii c in (65 <=? n)%nat && (n <=? 90)%nat.

Definition isLowerLetter (c : ascii) : bool :=
  let n := nat_of_ascii c in (97 <=? n)%nat && (n <=? 122)%nat.

Definition isLetter (c : ascii) : bool := isUpperLetter c || isLowerLetter c.

(** The bullet a player at [p] fires with the letter [char]. *)
Definition playerBullet (p : Player) (char : Character) : Bullet :=
  {| shooter := PLAYER;
     bullet_pos := Vec2.new (Vec2.x (player_pos p) + player_width p / 2
                             - BULLET_WIDTH / 2)
                            (Vec2.y (player_pos p));
     vel := Vec2.new 0 (- BULLET_SPEED);
     bullet_width := BULLET_WIDTH;
     bullet_height := BULLET_HEIGHT;
     character := char |}.

(** Two states agree on every field a shot leaves alone. *)
Definition sameButShot (s s' : State) : Prop :=
  gameRunning s' = gameRunning s /\ level s' = level s /\
  player s' = player s /\ aliens s' = aliens s /\
  alienVel s' = alienVel s /\ shields s' = shields s /\
  ammoRegenTimer s' = ammoRegenTimer s /\ message s' = message s.

(** The square of the Euclidean length of a vector. *)
Definition magnitudeSq (v : Vec2.t) : Q :=
  Vec2.x v * Vec2.x v + Vec2.y v * Vec2.y v.

(** A running world with no alien left. *)
Definition aliens_cleared : State := with_aliens running_world [].

(** The initial world after the game has ended with some score. *)
Definition stopped_world : State :=
  with_message (with_score (INITIAL_STATE EmptyString) 380)
               (MESSAGE_SCORE 380).

(** The velocity of a bullet shot by [sh]: straight up for the player,
    straight down for an alien. *)
Definition shotVelocity (sh : BulletShooter) : Vec2.t :=
  match sh with
  | PLAYER => Vec2.new 0 (- BULLET_SPEED)
  | ALIEN => Vec2.new 0 BULLET_SPEED
  end.

Definition verticalBullet (b : Bullet) : Prop := vel b = shotVelocity (shooter b).

(** The first two steps of a game: the start key, then a shot. *)
Definition started : State :=
  transition (INITIAL_STATE EmptyString) (key_input "Enter").

Definition after_shot : State := transition started (key_input "a").

(** ** Alien and bullet collisions, pair by pair *)

(** The bullet [b], not shot by an alien, overlaps the alien [a]. *)
Definition kills (a : Alien) (b : Bullet) : Prop :=
  shooter b <> ALIEN /\ rectangleRectangleCollide a b = true.

(** The score one (alien, bullet) pair is worth. *)
Definition pairScore (a : Alien) (b : Bullet) : Z :=
  if negb (BulletShooter_eqb (shooter b) ALIEN) && rectangleRectangleCollide a b
  then if String.eqb (alien_character a) (character b)
       then SCORE_ALIEN_KILL_CHAR_MATCH
       else SCORE_ALIEN_KILL
  else 0%Z.

(** The sum of [f] over a list. *)
Definition sumZ {A : Type} (f : A -> Z) (l : list A) : Z :=
  fold_right (fun x acc => (f x + acc)%Z) 0%Z l.

(** One player bullet lying over two aliens at once. *)
Definition two_aliens_one_bullet : State :=
  with_bullets
    (with_aliens running_world
       [ {| alien_pos := Vec2.new 100 100; alien_width := ALIEN_WIDTH;
            alien_height := ALIEN_HEIGHT; alien_character := "A" |};
         {| alien_pos := Vec2.new 110 100; alien_width := ALIEN_WIDTH;
            alien_height := ALIEN_HEIGHT; alien_character := "B" |} ])
    [ {| shooter := PLAYER; bullet_pos := Vec2.new 105 105;
         vel := Vec2.new 0 (- BULLET_SPEED); bullet_width := BULLET_WIDTH;
         bullet_height := BULLET_HEIGHT; character := "A" |} ].

(** ** Alien movement *)

(** The alien [a] moved by [dx] horizontally and [dy] vertically. *)
Definition movedBy (dx dy : Q) (a : Alien) : Alien :=
  {| alien_pos := Vec2.new (Vec2.x (alien_pos a) + dx)
                           (Vec2.y (alien_pos a) + dy);
     alien_width := alien_width a;
     alien_height := alien_height a;
     alien_character := alien_character a |}.

(** [l] is the least horizontal position among the aliens. *)
Definition leftmostOf (al : list Alien) (l : Q) : Prop :=
  (exists a, In a al /\ Vec2.x (pos a) == l) /\
  (forall a, In a al -> l <= Vec2.x (pos a)).

(** [r] is the greatest horizontal position among the aliens. *)
Definition rightmostOf (al : list Alien) (r : Q) : Prop :=
  (exists a, In a al /\ Vec2.x (pos a) == r) /\
  (forall a, In a al -> Vec2.x (pos a) <= r).

(** A running world whose only alien is to the right of the canvas, with a
    velocity that brings it back inside in one step. *)
Definition alien_off_canvas : State :=
  with_alienVel
    (with_aliens running_world
       [ {| alien_pos := Vec2.new 700 10; alien_width := ALIEN_WIDTH;
            alien_height := ALIEN_HEIGHT; alien_character := "A" |} ])
    (Vec2.new (-650) 0).

(** The initial grid, moving left from the left wall. *)
Definition grid_at_left_wall : State :=
  with_alienVel
    (with_aliens running_world
       (map (movedBy (-10) 0) (aliens running_world)))
    (Vec2.new (-1) 0).

(** ** The state a stage receives *)

(** The state after the first [n] stages of a tick; [stateAt 6] is what
    playerAlienCollision, the seventh stage, receives. *)
Definition stateAt (n : nat) (s : State) (i : Input) : State :=
  fold_left (fun s0 t => t s0 i) (firstn n stages) s.

(** A running world in which, within one tick, the alien moves onto the
    player while a player bullet hits that alien. *)
Definition game_over_with_kill : State :=
  with_bullets
    (with_aliens running_world
       [ {| alien_pos := Vec2.new 270 530; alien_width := ALIEN_WIDTH;
            alien_height := ALIEN_HEIGHT; alien_character := "B" |} ])
    [ {| shooter := PLAYER; bullet_pos := Vec2.new 270 535;
         vel := Vec2.new 0 (- BULLET_SPEED); bullet_width := BULLET_WIDTH;
         bullet_height := BULLET_HEIGHT; character := "A" |} ].

(** ** Further vocabulary: geometry, input aggregation, score text *)


(** The reducer of the input stream: the latest non-null properties of the
    inputs buffered during one frame, [cur.p ?? prev.p] from the empty
    object. *)
Definition latestInput (bufferedInput : list Input) : Input :=
  fold_left (fun prev cur =>
               {| mouse := match mouse cur with
                           | Some m => Some m
                           | None => mouse prev
                           end;
                  keyboard := match keyboard cur with
                              | Some k => Some k
                              | None => keyboard prev
                              end |})
            bufferedInput {| mouse := None; keyboard := None |}.

(** The last defined entry of a list of optional values. *)
Fixpoint lastSome {A : Type} (l : list (option A)) : option A :=
  match l with
  | [] => None
  | o :: l' => match lastSome l' with
               | Some a => Some a
               | None => o
               end
  end.

(** Reading a decimal numeral back. *)
Definition number_of_String (s : string) : option Z :=
  option_map Z.of_int (NilZero.int_of_string s).

(** A mouse move followed by two key presses within one frame. *)
Definition buffered_frame : list Input :=
  [ {| mouse := Some {| mouse_pos := Vec2.new 300 200 |}; keyboard := None |};
    {| mouse := None; keyboard := Some {| key := "a" |} |};
    {| mouse := None; keyboard := Some {| key := "b" |} |} ].

(** The player has its initial size and height on the screen and lies within
    the canvas. *)
Definition playerShape (s : State) : Prop :=
  player_width (player s) = PLAYER_WIDTH /\
  player_height (player s) = PLAYER_HEIGHT /\
  Vec2.y (player_pos (player s)) = Vec2.y PLAYER_POS_INIT /\
  0 <= Vec2.x (player_pos (player s)) <= CANVAS_WIDTH - PLAYER_WIDTH.

(** ammoRegen applied [n] times in a row. *)
Definition ammoRegenTimes (n : nat) (s : State) (i : Input) : State :=
  Nat.iter n (fun s0 => ammoRegen s0 i) s.

(** The hash that decides whether the alien shoots in this state, and with
    which letter. *)
Definition shootHash (s : State) (a : Alien) : Z :=
  simpleHash (JSON_stringify_state s ++ JSON_stringify_alien a).

(** The bullet one frame later: moved by its own velocity and otherwise the
    same bullet. *)
Definition advanced (b : Bullet) : Bullet :=
  {| shooter := shooter b;
     bullet_pos := Vec2.add (bullet_pos b) (vel b);
     vel := vel b;
     bullet_width := bullet_width b;
     bullet_height := bullet_height b;
     character := character b |}.

(** The vertical step of a bullet shot by [sh]. *)
Definition shotStep (sh : BulletShooter) : Q :=
  match sh with
  | PLAYER => - BULLET_SPEED
  | ALIEN => BULLET_SPEED
  end.

(** The bullet the alien [a] shoots in the state [s]. *)
Definition shotBy (s : State) (a : Alien) (b : Bullet) : Prop :=
  shooter b = ALIEN /\
  pos b = Vec2.new (Vec2.x (pos a) + width a - BULLET_WIDTH / 2)
                   (Vec2.y (pos a) + height a - BULLET_HEIGHT) /\
  vel b = Vec2.new 0 BULLET_SPEED /\
  width b = BULLET_WIDTH /\ height b = BULLET_HEIGHT /\
  character b = ABC_at (shootHash s a mod ABC_length).

(** ** Comparisons *)

Lemma Qltb_lt (a b : Q) : Qltb a b = true <-> a < b.
Proof.
  unfold Qltb. rewrite negb_true_iff. split; intros H.
  - apply Qnot_le_lt. intros Hle. apply Qle_bool_iff in Hle. congruence.
  - destruct (Qle_bool b a) eqn:E; [|reflexivity].
    apply Qle_bool_iff in E. lra.
Qed.

Lemma Qltb_ge (a b : Q) : Qltb a b = false <-> b <= a.
Proof.
  unfold Qltb. rewrite negb_false_iff. apply Qle_bool_iff.
Qed.

Lemma Qleb_le (a b : Q) : Qleb a b = true <-> a <= b.
Proof. apply Qle_bool_iff. Qed.

Lemma Qleb_gt (a b : Q) : Qleb a b = false <-> b < a.
Proof.
  unfold Qleb. split; intros H.
  - apply Qnot_le_lt. intros Hle. apply Qle_bool_iff in Hle. congruence.
  - destruct (Qle_bool a b) eqn:E; [|reflexivity].
    apply Qle_bool_iff in E. lra.
Qed.

(** ** noMoreAliens *)

(** The stage leaves the state alone exactly when some alien is at or above
    the player's bottom edge. *)
Lemma aliensExists_iff (s : State) :
  existsb (fun a => Qleb (Vec2.y (pos a)) (playerBottom s)) (aliens s) = true
  <-> exists a, In a (aliens s) /\ Vec2.y (pos a) <= playerBottom s.
Proof.
  rewrite existsb_exists. split; intros (a & Hin & Ha); exists a; split;
    trivial; now apply Qleb_le.
Qed.

Lemma noMoreAliens_cases (s : State) (i : Input) :
  (existsb (fun a => Qleb (Vec2.y (pos a)) (playerBottom s)) (aliens s) = true
   /\ noMoreAliens s i = s)
  \/ (existsb (fun a => Qleb (Vec2.y (pos a)) (playerBottom s)) (aliens s)
      = false
      /\ noMoreAliens s i = nextLevel s).
Proof.
  unfold noMoreAliens. fold (playerBottom s).
  destruct (existsb _ (aliens s)); [left | right]; split; reflexivity.
Qed.

Lemma nextLevel_neq (s : State) : nextLevel s <> s.
Proof.
  intros H. apply (f_equal level) in H. simpl in H. lia.
Qed.

(** C1 (amended): noMoreAliens returns the state unchanged when some alien
    is at or above the player's bottom edge.  When every remaining alien is
    strictly below that edge, it is not a no-op: the level-up branch runs.
    The level goes up by one, the aliens are replaced by the grid of the
    initialiser seeded with the serialisation of the state, and the velocity
    becomes its absolute value plus the increment; the other fields are
    kept. *)
Theorem noMoreAliens_all_past_player (s : State) (i : Input) :
  ((exists a, In a (aliens s) /\ Vec2.y (pos a) <= playerBottom s) ->
   noMoreAliens s i = s) /\
  ((forall a, In a (aliens s) -> Vec2.y (pos a) > playerBottom s) ->
   noMoreAliens s i = nextLevel s /\ noMoreAliens s i <> s).
Proof.
  destruct (noMoreAliens_cases s i) as [[Hex Heq] | [Hex Heq]]; split.
  - intros _. exact Heq.
  - intros Hpast. apply aliensExists_iff in Hex.
    destruct Hex as (a & Hin & Hle). specialize (Hpast a Hin). lra.
  - intros Hsome. apply aliensExists_iff in Hsome. congruence.
  - intros _. rewrite Heq. split; [reflexivity | apply nextLevel_neq].
Qed.

(** ** playerShoot *)

(** After ASCII upper-casing, a one-character key occurs in the alphabet
    exactly when it is an ASCII letter, of either case. *)
Lemma includes_ABC_letter (c : ascii) :
  includes ABC (toUpperCase_ASCII (String c EmptyString)) = isLetter c.
Proof.
  destruct c as [[] [] [] [] [] [] [] []]; vm_compute; reflexivity.
Qed.

Lemma toUpperCase_letter_upper (c : ascii) :
  isLetter c = true -> isUpperLetter (toUpperCase_ascii c) = true.
Proof.
  destruct c as [[] [] [] [] [] [] [] []]; vm_compute; trivial.
Qed.

Lemma includes_ABC_upper (c : ascii) :
  isUpperLetter c = true -> includes ABC (String c EmptyString) = true.
Proof.
  destruct c as [[] [] [] [] [] [] [] []]; vm_compute; trivial.
Qed.

Lemma isLetter_ASCII (c : ascii) :
  isLetter c = true -> isASCII (String c EmptyString) = true.
Proof.
  destruct c as [[] [] [] [] [] [] [] []]; vm_compute; trivial.
Qed.

Lemma playerShoot_shoots (s : State) (i : Input) (kb : Keyboard) :
  keyboard i = Some kb ->
  includes ABC (toUpperCase (key kb)) = true ->
  (ammo s > 0)%Z ->
  playerShoot s i
  = with_score
      (with_ammo
         (with_bullets s
            (bullets s ++ [playerBullet (player s) (toUpperCase (key kb))]))
         (ammo s - 1)%Z)
      (score s - SCORE_SHOOT_DECREMENT)%Z.
Proof.
  intros Hkb Hinc Hammo. unfold playerShoot. rewrite Hkb, Hinc. simpl negb.
  destruct (ammo s <=? 0)%Z eqn:E; [apply Z.leb_le in E; lia|].
  reflexivity.
Qed.

(** C2 (amended): playerShoot returns the state unchanged when there is no
    keyboard sample, when the upper-case form of the key, as toUpperCase
    gives it, does not occur in the alphabet, and when ammo is not positive.
    When the upper-case form of the key is one letter A-Z and ammo > 0, it
    appends exactly one bullet, centred on the player, moving up at the
    bullet speed and tagged with that letter, takes one from ammo and the
    shoot penalty from the score, and keeps every other field.  Given that
    toUpperCase acts on ASCII strings as usual (a-z to A-Z, the rest kept),
    a key that is one ASCII letter, of either case, shoots in this way,
    tagged with its upper-case letter, and a key that is one ASCII character
    other than a letter is a no-op. *)
Theorem playerShoot_spec (s : State) (i : Input) :
  (keyboard i = None -> playerShoot s i = s) /\
  (forall kb, keyboard i = Some kb ->
              includes ABC (toUpperCase (key kb)) = false ->
              playerShoot s i = s) /\
  ((ammo s <= 0)%Z -> playerShoot s i = s) /\
  (forall kb c, keyboard i = Some kb ->
                toUpperCase (key kb) = String c EmptyString ->
                isUpperLetter c = true -> (ammo s > 0)%Z ->
     let b := playerBullet (player s) (String c EmptyString) in
     bullets (playerShoot s i) = (bullets s ++ [b])%list /\
     ammo (playerShoot s i) = (ammo s - 1)%Z /\
     score (playerShoot s i) = (score s - SCORE_SHOOT_DECREMENT)%Z /\
     sameButShot s (playerShoot s i) /\
     Vec2.x (pos b) + width b / 2
     == Vec2.x (pos (player s)) + width (player s) / 2) /\
  ((forall k, isASCII k = true -> toUpperCase k = toUpperCase_ASCII k) ->
   (forall kb c, keyboard i = Some kb -> key kb = String c EmptyString ->
                 isLetter c = true ->
      toUpperCase (key kb) = String (toUpperCase_ascii c) EmptyString /\
      isUpperLetter (toUpperCase_ascii c) = true /\
      ((ammo s > 0)%Z ->
       bullets (playerShoot s i)
       = (bullets s
          ++ [playerBullet (player s)
                (String (toUpperCase_ascii c) EmptyString)])%list)) /\
   (forall kb c, keyboard i = Some kb -> key kb = String c EmptyString ->
                 isASCII (key kb) = true -> isLetter c = false ->
      playerShoot s i = s)).
Proof.
  split; [|split; [|split; [|split]]].
  - intros Hkb. unfold playerShoot. now rewrite Hkb.
  - intros kb Hkb Hinc. unfold playerShoot. now rewrite Hkb, Hinc.
  - intros Hammo. unfold playerShoot.
    destruct (keyboard i) as [kb|]; [|reflexivity].
    destruct (includes ABC (toUpperCase (key kb))); [|reflexivity].
    simpl negb. cbv iota.
    destruct (ammo s <=? 0)%Z eqn:E; [reflexivity|].
    apply Z.leb_gt in E. lia.
  - intros kb c Hkb Hup Hc Hammo b.
    assert (Hinc : includes ABC (toUpperCase (key kb)) = true)
      by (rewrite Hup; now apply includes_ABC_upper).
    rewrite (playerShoot_shoots s i kb Hkb Hinc Hammo), Hup.
    split; [reflexivity|]. split; [reflexivity|]. split; [reflexivity|].
    split; [repeat split|].
    simpl. unfold Qdiv. ring.
  - intros Hascii. split.
    + intros kb c Hkb Hkey Hc.
      assert (Hup : toUpperCase (key kb)
                    = String (toUpperCase_ascii c) EmptyString).
      { rewrite Hascii; rewrite Hkey; [reflexivity|].
        now apply isLetter_ASCII. }
      split; [exact Hup|]. split; [now apply toUpperCase_letter_upper|].
      intros Hammo.
      assert (Hinc : includes ABC (toUpperCase (key kb)) = true).
      { rewrite Hup. apply includes_ABC_upper.
        now apply toUpperCase_letter_upper. }
      now rewrite (playerShoot_shoots s i kb Hkb Hinc Hammo), Hup.
    + intros kb c Hkb Hkey Hasc Hc. unfold playerShoot.
      rewrite Hkb, (Hascii _ Hasc), Hkey, includes_ABC_letter, Hc.
      reflexivity.
Qed.

(** ** transition while the game is stopped *)


(** ** Level-up *)

Lemma INITIAL_STATE_aliens_length (seed : string) :
  List.length (aliens (INITIAL_STATE seed)) = (ALIEN_ROWS * ALIEN_COLS)%nat.
Proof. reflexivity. Qed.

Lemma Qabs_square (q : Q) : Qabs q * Qabs q == q * q.
Proof.
  apply Qabs_case; intros _; ring.
Qed.

Lemma magnitudeSq_grows (v : Vec2.t) :
  magnitudeSq v < magnitudeSq (Vec2.add (Vec2.abs v) ALIEN_VEL_INC).
Proof.
  destruct v as [vx vy]. unfold magnitudeSq, Vec2.add, Vec2.abs. simpl.
  pose proof (Qabs_nonneg vx) as Hx. pose proof (Qabs_nonneg vy) as Hy.
  pose proof (Qabs_square vx) as Hxx. pose proof (Qabs_square vy) as Hyy.
  set (ax := Qabs vx) in *. set (ay := Qabs vy) in *.
  setoid_replace ((ax + (5 # 10)) * (ax + (5 # 10))
                  + (ay + (1 # 10)) * (ay + (1 # 10)))
    with (ax * ax + ay * ay + ax + (1 # 5) * ay + (26 # 100)) by ring.
  rewrite Hxx, Hyy. lra.
Qed.

(** C9: with no alien left, noMoreAliens adds one to the level, replaces the
    aliens by the full grid of the initialiser seeded with the serialisation
    of the state (only that part of the initial world is used), and replaces
    the velocity by its componentwise absolute value plus the increment, which
    is strictly longer; the other fields are kept. *)
Theorem noMoreAliens_cleared (s : State) (i : Input) :
  aliens s = [] ->
  let s' := noMoreAliens s i in
  level s' = (level s + 1)%Z /\
  aliens s' = aliens (INITIAL_STATE (JSON_stringify_state s)) /\
  List.length (aliens s') = (ALIEN_ROWS * ALIEN_COLS)%nat /\
  alienVel s' = Vec2.add (Vec2.abs (alienVel s)) ALIEN_VEL_INC /\
  Qabs (Vec2.x (alienVel s)) < Vec2.x (alienVel s') /\
  Qabs (Vec2.y (alienVel s)) < Vec2.y (alienVel s') /\
  magnitudeSq (alienVel s) < magnitudeSq (alienVel s') /\
  gameRunning s' = gameRunning s /\ player s' = player s /\
  bullets s' = bullets s /\ shields s' = shields s /\ score s' = score s /\
  ammo s' = ammo s /\ ammoRegenTimer s' = ammoRegenTimer s /\
  message s' = message s.
Proof.
  intros Hnil s'. subst s'. unfold noMoreAliens. rewrite Hnil.
  cbn [existsb with_alienVel with_aliens with_level level aliens alienVel
       gameRunning player bullets shields score ammo ammoRegenTimer message].
  repeat split.
  all: cbn [Vec2.add Vec2.abs Vec2.x Vec2.y ALIEN_VEL_INC].
  - pose proof (Qabs_nonneg (Vec2.x (alienVel s))). lra.
  - pose proof (Qabs_nonneg (Vec2.y (alienVel s))). lra.
  - apply magnitudeSq_grows.
Qed.

(** ** Invariants of the reachable states *)

Ltac unfold_stage :=
  unfold playerShoot, alienShoot, movePlayer, moveAlien, moveBullet,
    removeBullet, playerAlienCollision, playerBulletCollision,
    alienBulletCollision, shieldBulletCollision, noMoreAliens, ammoRegen.

Ltac break_if :=
  repeat match goal with
         | |- context [match ?c with _ => _ end] => destruct c eqn:?
         end.

Ltac each_stage H :=
  unfold stages in H; simpl In in H;
  repeat (destruct H as [<- | H]); [.. | contradiction H].

(** A property of the world that the initialiser establishes and every stage
    keeps holds in every reachable state. *)
Lemma reachable_stages_ind (P : State -> Prop) :
  (forall seed b, P (with_gameRunning (INITIAL_STATE seed) b)) ->
  (forall t s i, In t stages -> P s -> P (t s i)) ->
  forall s, reachable s -> P s.
Proof.
  intros Hinit Hstage s Hs. induction Hs as [| s i Hs IH].
  - exact (Hinit EmptyString false).
  - unfold transition.
    destruct (negb (gameRunning s) && pressedEnter i); [apply Hinit|].
    destruct (negb (gameRunning s)); [exact IH|].
    assert (Hall : forall ts, incl ts stages -> forall s0, P s0 ->
                   P (fold_left (fun s1 t => t s1 i) ts s0)).
    { induction ts as [| t ts IHts]; intros Hincl s0 Hs0; simpl.
      - exact Hs0.
      - apply IHts.
        + intros t' Ht'. apply Hincl. now right.
        + apply Hstage; [apply Hincl; now left | exact Hs0]. }
    apply Hall; [apply incl_refl | exact IH].
Qed.

Lemma stage_ammo_bounds (t : State -> Input -> State) (s : State) (i : Input) :
  In t stages ->
  (0 <= ammo s <= AMMO_MAX)%Z -> (0 <= ammo (t s i) <= AMMO_MAX)%Z.
Proof.
  intros Ht Hs. unfold AMMO_MAX, AMMO_REGEN_AMOUNT in *. each_stage Ht.
  all: unfold_stage; break_if; simpl;
    unfold AMMO_MAX, AMMO_REGEN_AMOUNT in *; lia.
Qed.

(** C6: in every reachable state the ammo lies between 0 and AMMO_MAX;
    playerShoot never takes a non-negative ammo below 0 and ammoRegen never
    takes an ammo within the bound above AMMO_MAX. *)
Theorem ammo_bounds (s : State) :
  reachable s ->
  (0 <= ammo s <= AMMO_MAX)%Z /\
  (forall i, 0 <= ammo (playerShoot s i))%Z /\
  (forall i, ammo (ammoRegen s i) <= AMMO_MAX)%Z.
Proof.
  intros Hs.
  assert (Hb : (0 <= ammo s <= AMMO_MAX)%Z).
  { revert s Hs. apply reachable_stages_ind.
    - intros seed b. simpl. unfold AMMO_MAX. lia.
    - intros t s i. apply stage_ammo_bounds. }
  split; [exact Hb|]. split; intros i.
  - apply (stage_ammo_bounds playerShoot s i); [now left | exact Hb].
  - apply (stage_ammo_bounds ammoRegen s i); [|exact Hb].
    unfold stages. simpl. tauto.
Qed.

Lemma shieldBulletCollision_shields_positive (s : State) (i : Input) :
  forall sh, In sh (shields (shieldBulletCollision s i)) -> height sh > 0.
Proof.
  intros sh Hin. unfold shieldBulletCollision in Hin. simpl in Hin.
  apply filter_In in Hin. destruct Hin as [_ Hpos].
  now apply Qltb_lt in Hpos.
Qed.

Lemma stage_shields_positive (t : State -> Input -> State) (s : State)
    (i : Input) :
  In t stages ->
  (forall sh, In sh (shields s) -> height sh > 0) ->
  forall sh, In sh (shields (t s i)) -> height sh > 0.
Proof.
  intros Ht Hs. each_stage Ht.
  10: apply shieldBulletCollision_shields_positive.
  all: unfold_stage; break_if; simpl; exact Hs.
Qed.

(** C7: in every reachable state every shield present has a positive height;
    whatever the state, the shields shieldBulletCollision leaves are those of
    positive height, so a shield whose height falls to zero or below is gone
    by the end of the tick in which it is hit. *)
Theorem shields_positive (s : State) :
  reachable s ->
  (forall sh, In sh (shields s) -> height sh > 0) /\
  (forall (s0 : State) (i : Input) (sh : Shield),
      In sh (shields (shieldBulletCollision s0 i)) -> height sh > 0).
Proof.
  intros Hs. split.
  - revert s Hs.
    apply (reachable_stages_ind
             (fun s => forall sh, In sh (shields s) -> height sh > 0)).
    + intros seed b sh Hin. simpl in Hin.
      repeat (destruct Hin as [<- | Hin]; [reflexivity|]). contradiction Hin.
    + intros t s i. apply stage_shields_positive.
  - intros s0 i. apply shieldBulletCollision_shields_positive.
Qed.

(** Every bullet a stage hands on is either a bullet it received, with its
    shooter and velocity untouched, or a bullet shot in that stage. *)
Lemma stage_bullets_origin (t : State -> Input -> State) (s : State)
    (i : Input) (b' : Bullet) :
  In t stages ->
  In b' (bullets (t s i)) ->
  (exists b, In b (bullets s) /\ shooter b' = shooter b /\ vel b' = vel b)
  \/ (~ In b' (bullets s) /\ verticalBullet b').
Proof.
  intros Ht Hin.
  assert (Hdec : forall l : list Bullet,
             In b' l \/ ~ In b' l).
  { intros l. induction l as [| b l IH]; [now right|].
    destruct IH as [IH | IH]; [left; now right|].
    assert (Hb : b = b' \/ b <> b').
    { destruct b as [sh1 [x1 y1] [vx1 vy1] w1 h1 c1],
               b' as [sh2 [x2 y2] [vx2 vy2] w2 h2 c2].
      assert (Hq : forall p q : Q, p = q \/ p <> q).
      { intros [n1 d1] [n2 d2].
        destruct (Z.eq_dec n1 n2) as [-> | Hn];
          [|right; intros H; inversion H; contradiction].
        destruct (Pos.eq_dec d1 d2) as [-> | Hd];
          [now left | right; intros H; inversion H; contradiction]. }
      destruct sh1, sh2; try (right; discriminate).
      all: destruct (Hq x1 x2) as [-> | N]; [|right; congruence].
      all: destruct (Hq y1 y2) as [-> | N]; [|right; congruence].
      all: destruct (Hq vx1 vx2) as [-> | N]; [|right; congruence].
      all: destruct (Hq vy1 vy2) as [-> | N]; [|right; congruence].
      all: destruct (Hq w1 w2) as [-> | N]; [|right; congruence].
      all: destruct (Hq h1 h2) as [-> | N]; [|right; congruence].
      all: destruct (string_dec c1 c2) as [-> | N]; [|right; congruence].
      all: now left. }
    destruct Hb as [Hb | Hb]; [left; now left|].
    right. intros [H | H]; contradiction. }
  destruct (Hdec (bullets s)) as [Hold | Hnew].
  { left. exists b'. auto. }
  each_stage Ht.
  all: revert Hin; unfold_stage; break_if; simpl; intros Hin.
  all: try contradiction.
  all: try (apply filter_In in Hin; destruct Hin as [Hin _]; contradiction).
  - apply in_app_or in Hin. destruct Hin as [Hin | [<- | []]];
      [contradiction|]. right. split; [exact Hnew | reflexivity].
  - apply in_app_or in Hin. destruct Hin as [Hin | Hin]; [contradiction|].
    apply in_map_iff in Hin. destruct Hin as (a & <- & _).
    right. split; [exact Hnew | reflexivity].
  - apply in_map_iff in Hin. destruct Hin as (b & <- & Hb).
    left. exists b. simpl. auto.
Qed.

Lemma stage_bullets_vertical (t : State -> Input -> State) (s : State)
    (i : Input) :
  In t stages ->
  (forall b, In b (bullets s) -> verticalBullet b) ->
  forall b, In b (bullets (t s i)) -> verticalBullet b.
Proof.
  intros Ht Hs b' Hin.
  destruct (stage_bullets_origin t s i b' Ht Hin)
    as [(b & Hb & Hsh & Hvel) | [_ Hv]]; [|exact Hv].
  unfold verticalBullet. rewrite Hvel, Hsh. exact (Hs b Hb).
Qed.


(** ** alienBulletCollision *)

Lemma not_ALIEN_iff (sh : BulletShooter) :
  negb (BulletShooter_eqb sh ALIEN) = true <-> sh <> ALIEN.
Proof.
  destruct sh; simpl; split; try congruence; intros H; now elim H.
Qed.

Lemma kills_iff (a : Alien) (b : Bullet) :
  negb (BulletShooter_eqb (shooter b) ALIEN) && rectangleRectangleCollide a b
  = true <-> kills a b.
Proof.
  unfold kills. rewrite andb_true_iff, not_ALIEN_iff. reflexivity.
Qed.

Lemma fold_left_sumZ {A : Type} (f : A -> Z) (l : list A) (z : Z) :
  fold_left (fun acc x => (acc + f x)%Z) l z = (z + sumZ f l)%Z.
Proof.
  revert z. induction l as [| x l IH]; intros z; simpl.
  - lia.
  - rewrite IH. lia.
Qed.

Lemma fold_left_ext_acc {A B : Type} (f g : B -> A -> B) (l : list A) (z : B) :
  (forall acc x, f acc x = g acc x) -> fold_left f l z = fold_left g l z.
Proof.
  intros Hfg. revert z. induction l as [| x l IH]; intros z; simpl.
  - reflexivity.
  - rewrite Hfg. apply IH.
Qed.

Lemma alienBulletCollision_score (s : State) (i : Input) :
  score (alienBulletCollision s i)
  = (score s
     + sumZ (fun a => sumZ (fun b => pairScore a b) (bullets s)) (aliens s))%Z.
Proof.
  unfold alienBulletCollision. simpl.
  rewrite <- fold_left_sumZ. apply fold_left_ext_acc. intros acc a.
  rewrite <- fold_left_sumZ. apply fold_left_ext_acc. intros acc' b.
  unfold pairScore.
  destruct (negb (BulletShooter_eqb (shooter b) ALIEN)
            && rectangleRectangleCollide a b);
    [destruct (String.eqb (alien_character a) (character b))|]; lia.
Qed.

(** C5: alienBulletCollision keeps the aliens and the bullets in order and
    drops exactly the aliens that overlap some bullet not shot by an alien and
    exactly the bullets not shot by an alien that overlap some alien; the
    score grows by the sum, over all pairs of an alien and a bullet of the
    state the stage received, of the matching-character bonus when the bullet
    is not alien-shot, overlaps the alien and carries its character, of the
    base amount when it overlaps with another character, and of nothing
    otherwise.  The other fields are kept. *)
Theorem alienBulletCollision_spec (s : State) (i : Input) :
  let s' := alienBulletCollision s i in
  (exists keep : Alien -> bool,
      (forall a, keep a = false <-> exists b, In b (bullets s) /\ kills a b) /\
      aliens s' = filter keep (aliens s)) /\
  (exists keep : Bullet -> bool,
      (forall b, keep b = false <-> exists a, In a (aliens s) /\ kills a b) /\
      bullets s' = filter keep (bullets s)) /\
  score s'
  = (score s
     + sumZ (fun a => sumZ (fun b => pairScore a b) (bullets s)) (aliens s))%Z /\
  (forall a b,
      (kills a b -> alien_character a = character b ->
       pairScore a b = SCORE_ALIEN_KILL_CHAR_MATCH) /\
      (kills a b -> alien_character a <> character b ->
       pairScore a b = SCORE_ALIEN_KILL) /\
      (~ kills a b -> pairScore a b = 0%Z)) /\
  gameRunning s' = gameRunning s /\ level s' = level s /\
  player s' = player s /\ alienVel s' = alienVel s /\
  shields s' = shields s /\ ammo s' = ammo s /\
  ammoRegenTimer s' = ammoRegenTimer s /\ message s' = message s.
Proof.
  intros s'. split; [|split; [|split; [|split]]].
  - eexists. split; [|reflexivity].
    intros a. rewrite negb_false_iff, existsb_exists.
    split; intros (b & Hb & Hk); exists b; split; trivial;
      now apply kills_iff.
  - eexists. split; [|reflexivity].
    intros b. rewrite negb_false_iff, existsb_exists.
    split; intros (a & Ha & Hk); exists a; split; trivial;
      now apply kills_iff.
  - apply alienBulletCollision_score.
  - intros a b. unfold pairScore. split; [|split].
    + intros Hk Heq. apply kills_iff in Hk. rewrite Hk.
      apply String.eqb_eq in Heq. now rewrite Heq.
    + intros Hk Hne. apply kills_iff in Hk. rewrite Hk.
      apply String.eqb_neq in Hne. now rewrite Hne.
    + intros Hk.
      destruct (negb (BulletShooter_eqb (shooter b) ALIEN)
                && rectangleRectangleCollide a b) eqn:E; [|reflexivity].
      apply kills_iff in E. contradiction.
  - repeat split.
Qed.

(** A bullet lying over two aliens removes both and scores for each pair:
    the matching-character bonus for the alien with its letter, the base
    amount for the other. *)
Example alienBulletCollision_two_aliens :
  let s' := alienBulletCollision two_aliens_one_bullet no_input in
  aliens s' = [] /\ bullets s' = [] /\
  score s' = (score two_aliens_one_bullet
              + SCORE_ALIEN_KILL_CHAR_MATCH + SCORE_ALIEN_KILL)%Z.
Proof. vm_compute. repeat split. Qed.

(** ** moveAlien *)

Lemma Qmin_cases (p q : Q) : Qmin p q = p \/ Qmin p q = q.
Proof.
  unfold Qmin, GenericMinMax.gmin. destruct (p ?= q); auto.
Qed.

Lemma Qmax_cases (p q : Q) : Qmax p q = p \/ Qmax p q = q.
Proof.
  unfold Qmax, GenericMinMax.gmax. destruct (p ?= q); auto.
Qed.

(** What the reduce over the aliens computes from any seed [(l0, r0)]. *)
Lemma fold_left_minmax (al : list Alien) (l0 r0 : Q) :
  let lr :=
    fold_left (fun '(l, r) alien =>
                 (Qmin l (Vec2.x (pos alien)), Qmax r (Vec2.x (pos alien))))
              al (l0, r0) in
  fst lr <= l0 /\ r0 <= snd lr /\
  (forall a, In a al -> fst lr <= Vec2.x (pos a) <= snd lr) /\
  (fst lr = l0 \/ exists a, In a al /\ fst lr = Vec2.x (pos a)) /\
  (snd lr = r0 \/ exists a, In a al /\ snd lr = Vec2.x (pos a)).
Proof.
  revert l0 r0. induction al as [| a al IH]; intros l0 r0; simpl.
  - repeat split; try lra; try tauto; contradiction.
  - specialize (IH (Qmin l0 (Vec2.x (alien_pos a)))
                   (Qmax r0 (Vec2.x (alien_pos a)))).
    simpl in IH. destruct IH as (Hl & Hr & Hall & Hlw & Hrw).
    pose proof (Q.le_min_l l0 (Vec2.x (alien_pos a))) as M1.
    pose proof (Q.le_min_r l0 (Vec2.x (alien_pos a))) as M2.
    pose proof (Q.le_max_l r0 (Vec2.x (alien_pos a))) as M3.
    pose proof (Q.le_max_r r0 (Vec2.x (alien_pos a))) as M4.
    split; [lra|]. split; [lra|]. split; [|split].
    + intros a' [<- | Hin]; [lra | now apply Hall].
    + destruct Hlw as [Hlw | (a' & Hin & Ha')].
      * destruct (Qmin_cases l0 (Vec2.x (alien_pos a))) as [E | E].
        -- left. rewrite Hlw. exact E.
        -- right. exists a. split; [now left | rewrite Hlw; exact E].
      * right. exists a'. auto.
    + destruct Hrw as [Hrw | (a' & Hin & Ha')].
      * destruct (Qmax_cases r0 (Vec2.x (alien_pos a))) as [E | E].
        -- left. rewrite Hrw. exact E.
        -- right. exists a. split; [now left | rewrite Hrw; exact E].
      * right. exists a'. auto.
Qed.

(** With some alien on the canvas side of each seed, the reduce yields the
    true extremes. *)
Lemma leftRightMost_extremes (al : list Alien) :
  (exists a, In a al /\ Vec2.x (pos a) <= CANVAS_WIDTH) ->
  (exists a, In a al /\ 0 <= Vec2.x (pos a)) ->
  leftmostOf al (fst (leftRightMost al)) /\
  rightmostOf al (snd (leftRightMost al)).
Proof.
  intros (a1 & Ha1 & X1) (a2 & Ha2 & X2). unfold leftRightMost.
  pose proof (fold_left_minmax al CANVAS_WIDTH 0) as H. cbv zeta in H.
  destruct H as (Hl & Hr & Hall & Hlw & Hrw).
  split; split.
  - destruct Hlw as [Hlw | (a & Ha & Hla)].
    + exists a1. split; [exact Ha1|].
      specialize (Hall a1 Ha1). rewrite Hlw in *. lra.
    + exists a. split; [exact Ha | now rewrite Hla].
  - intros a Ha. apply Hall, Ha.
  - destruct Hrw as [Hrw | (a & Ha & Hra)].
    + exists a2. split; [exact Ha2|].
      specialize (Hall a2 Ha2). rewrite Hrw in *. lra.
    + exists a. split; [exact Ha | now rewrite Hra].
  - intros a Ha. apply Hall, Ha.
Qed.

(** C4: for an alien collection with some alien not right of the canvas and
    some alien not left of it, as all the states of the game are, moveAlien
    works from the leftmost and the rightmost alien position [l] and [r].
    If the velocity takes the leftmost alien past the left wall, the
    horizontal velocity is negated, every alien is shifted by the one offset
    that puts the leftmost on the wall, and every alien drops by the drop
    amount instead of moving by the vertical velocity.  Otherwise, if it
    takes the rightmost alien (plus the alien width) past the right wall,
    likewise with the right edge of the rightmost alien on the right wall.
    Otherwise every alien moves by the velocity, which is kept.  The other
    fields are kept. *)
Theorem moveAlien_spec (s : State) (i : Input) :
  (exists a, In a (aliens s) /\ Vec2.x (pos a) <= CANVAS_WIDTH) ->
  (exists a, In a (aliens s) /\ 0 <= Vec2.x (pos a)) ->
  let s' := moveAlien s i in
  let vx := Vec2.x (alienVel s) in
  let vy := Vec2.y (alienVel s) in
  exists l r,
    leftmostOf (aliens s) l /\ rightmostOf (aliens s) r /\
    (l + vx < 0 ->
       alienVel s' = Vec2.new (-1 * vx) vy /\
       Vec2.x (alienVel s') == - vx /\
       aliens s' = map (movedBy (0 - l) ALIEN_DROP_AMOUNT) (aliens s) /\
       leftmostOf (aliens s') 0) /\
    (0 <= l + vx -> r + ALIEN_WIDTH + vx > CANVAS_WIDTH ->
       alienVel s' = Vec2.new (-1 * vx) vy /\
       Vec2.x (alienVel s') == - vx /\
       aliens s'
       = map (movedBy (CANVAS_WIDTH - ALIEN_WIDTH - r) ALIEN_DROP_AMOUNT)
             (aliens s) /\
       rightmostOf (aliens s') (CANVAS_WIDTH - ALIEN_WIDTH)) /\
    (0 <= l + vx -> r + ALIEN_WIDTH + vx <= CANVAS_WIDTH ->
       alienVel s' = alienVel s /\
       aliens s' = map (movedBy vx vy) (aliens s)) /\
    gameRunning s' = gameRunning s /\ level s' = level s /\
    player s' = player s /\ bullets s' = bullets s /\
    shields s' = shields s /\ score s' = score s /\ ammo s' = ammo s /\
    ammoRegenTimer s' = ammoRegenTimer s /\ message s' = message s.
Proof.
  intros Hne Hin s' vx vy.
  destruct (leftRightMost_extremes (aliens s) Hne Hin) as [HL HR].
  subst s'. unfold moveAlien.
  destruct (leftRightMost (aliens s)) as [l r]. simpl fst in HL.
  simpl snd in HR. fold vx vy.
  exists l, r. split; [exact HL|]. split; [exact HR|].
  destruct HL as [(al & Hal & Hxl) HLle], HR as [(ar & Har & Hxr) HRle].
  split; [|split; [|split]].
  - intros Hhit. apply Qltb_lt in Hhit. rewrite Hhit. simpl.
    split; [reflexivity|]. split; [ring|]. split; [reflexivity|].
    split.
    + exists (movedBy (0 - l) ALIEN_DROP_AMOUNT al). split.
      * apply in_map_iff. exists al. split; [reflexivity | exact Hal].
      * simpl in *. rewrite Hxl. ring.
    + intros a' Ha'. apply in_map_iff in Ha'. destruct Ha' as (a & <- & Ha).
      specialize (HLle a Ha). simpl in *. lra.
  - intros Hleft Hhit. apply Qltb_ge in Hleft. apply Qltb_lt in Hhit.
    rewrite Hleft. unfold Qgtb. rewrite Hhit. simpl.
    split; [reflexivity|]. split; [ring|]. split; [reflexivity|].
    split.
    + exists (movedBy (CANVAS_WIDTH - ALIEN_WIDTH - r) ALIEN_DROP_AMOUNT ar).
      split.
      * apply in_map_iff. exists ar. split; [reflexivity | exact Har].
      * simpl in *. rewrite Hxr. ring.
    + intros a' Ha'. apply in_map_iff in Ha'. destruct Ha' as (a & <- & Ha).
      specialize (HRle a Ha). simpl in *. lra.
  - intros Hleft Hright. apply Qltb_ge in Hleft, Hright.
    rewrite Hleft. unfold Qgtb. rewrite Hright. simpl.
    split; [reflexivity|]. unfold movedBy. apply map_ext. intros a.
    destruct (alienVel s); reflexivity.
  - destruct (Qltb (l + vx) 0 || Qgtb (r + ALIEN_WIDTH + vx) CANVAS_WIDTH);
      repeat split.
Qed.

(** ** Game over by running into an alien *)

Lemma pairScore_nonneg (a : Alien) (b : Bullet) : (0 <= pairScore a b)%Z.
Proof.
  unfold pairScore, SCORE_ALIEN_KILL_CHAR_MATCH, SCORE_ALIEN_KILL.
  break_if; lia.
Qed.

Lemma sumZ_nonneg {A : Type} (f : A -> Z) (l : list A) :
  (forall x, 0 <= f x)%Z -> (0 <= sumZ f l)%Z.
Proof.
  intros Hf. induction l as [| x l IH]; simpl; [lia|].
  specialize (Hf x). lia.
Qed.

Lemma alienBulletCollision_score_le (s : State) (i : Input) :
  (score s <= score (alienBulletCollision s i))%Z.
Proof.
  rewrite alienBulletCollision_score.
  assert (0 <= sumZ (fun a => sumZ (fun b => pairScore a b) (bullets s))
                    (aliens s))%Z; [|lia].
  apply sumZ_nonneg. intros a. apply sumZ_nonneg. intros b.
  apply pairScore_nonneg.
Qed.

(** The stages that never write the score. *)
Lemma stage_keeps_score (t : State -> Input -> State) (s : State) (i : Input) :
  In t [alienShoot; movePlayer; moveAlien; moveBullet; removeBullet;
        playerAlienCollision; playerBulletCollision; shieldBulletCollision;
        noMoreAliens; ammoRegen] ->
  score (t s i) = score s.
Proof.
  intros Ht. simpl In in Ht.
  repeat (destruct Ht as [<- | Ht]); [.. | contradiction Ht].
  all: unfold_stage; break_if; reflexivity.
Qed.

(** The stages after the two player collisions keep the running flag and the
    message. *)
Lemma stage_keeps_verdict (t : State -> Input -> State) (s : State)
    (i : Input) :
  In t [alienBulletCollision; shieldBulletCollision; noMoreAliens; ammoRegen] ->
  gameRunning (t s i) = gameRunning s /\ message (t s i) = message s.
Proof.
  intros Ht. simpl In in Ht.
  repeat (destruct Ht as [<- | Ht]); [.. | contradiction Ht].
  all: unfold_stage; break_if; split; reflexivity.
Qed.

Lemma playerBulletCollision_after_game_over (s : State) (i : Input) :
  gameRunning s = false -> message s = MESSAGE_SCORE (score s) ->
  gameRunning (playerBulletCollision s i) = false /\
  message (playerBulletCollision s i) = MESSAGE_SCORE (score s).
Proof.
  intros Hrun Hmsg. unfold playerBulletCollision. break_if; simpl; auto.
Qed.

Lemma transition_running_stages (s : State) (i : Input) :
  gameRunning s = true ->
  transition s i
  = ammoRegen
      (noMoreAliens
         (shieldBulletCollision
            (alienBulletCollision
               (playerBulletCollision
                  (playerAlienCollision (stateAt 6 s i) i) i) i) i) i) i.
Proof.
  intros Hrun. unfold transition. rewrite Hrun. reflexivity.
Qed.

Lemma last_stages_keep (s : State) (i : Input) :
  let s' := ammoRegen (noMoreAliens (shieldBulletCollision s i) i) i in
  gameRunning s' = gameRunning s /\ message s' = message s /\
  score s' = score s.
Proof.
  intros s'. subst s'.
  repeat (rewrite (proj1 (stage_keeps_verdict ammoRegen _ i
                            ltac:(simpl; tauto))) ||
          rewrite (proj1 (stage_keeps_verdict noMoreAliens _ i
                            ltac:(simpl; tauto))) ||
          rewrite (proj1 (stage_keeps_verdict shieldBulletCollision _ i
                            ltac:(simpl; tauto))) ||
          rewrite (proj2 (stage_keeps_verdict ammoRegen _ i
                            ltac:(simpl; tauto))) ||
          rewrite (proj2 (stage_keeps_verdict noMoreAliens _ i
                            ltac:(simpl; tauto))) ||
          rewrite (proj2 (stage_keeps_verdict shieldBulletCollision _ i
                            ltac:(simpl; tauto)))).
  repeat (rewrite stage_keeps_score; [|simpl; tauto]).
  repeat split.
Qed.

Lemma stateAt_6_score (s : State) (i : Input) :
  score (stateAt 6 s i) = score (playerShoot s i).
Proof.
  unfold stateAt, stages. cbn [firstn fold_left].
  repeat (rewrite stage_keeps_score; [|simpl; tauto]). reflexivity.
Qed.


(** * Further properties of the code *)

(** ** rectangleRectangleCollide *)

(** Overlap does not depend on the order of the two rectangles. *)
Theorem rectangleRectangleCollide_sym {A B : Type} `{Rectangle A}
    `{Rectangle B} (r1 : A) (r2 : B) :
  rectangleRectangleCollide r1 r2 = rectangleRectangleCollide r2 r1.
Proof.
  unfold rectangleRectangleCollide, Qgtb.
  destruct (Qltb (Vec2.x (pos r2)) (Vec2.x (pos r1) + width r1)),
           (Qltb (Vec2.x (pos r1)) (Vec2.x (pos r2) + width r2)),
           (Qltb (Vec2.y (pos r2)) (Vec2.y (pos r1) + height r1)),
           (Qltb (Vec2.y (pos r1)) (Vec2.y (pos r2) + height r2));
    reflexivity.
Qed.




(** ** cartesian *)

Lemma cartesian_fold {S T : Type} (s : list S) (t : list T)
    (acc : list (S * T)) :
  fold_left (fun acc se => (acc ++ map (fun te => (se, te)) t)%list) s acc
  = (acc ++ list_prod s t)%list.
Proof.
  revert acc. induction s as [| se s IH]; intros acc; simpl.
  - now rewrite app_nil_r.
  - rewrite IH. now rewrite <- app_assoc.
Qed.

(** cartesian is the product of the two lists, first component outermost,
    whatever their lengths: every pair once per occurrence, |s| * |t| pairs
    in all. *)
Theorem cartesian_list_prod {S T : Type} (s : list S) (t : list T) :
  cartesian s t = list_prod s t /\
  List.length (cartesian s t) = (List.length s * List.length t)%nat /\
  (forall a b, In (a, b) (cartesian s t) <-> In a s /\ In b t).
Proof.
  assert (E : cartesian s t = list_prod s t).
  { unfold cartesian. now rewrite cartesian_fold. }
  rewrite E. split; [reflexivity|]. split.
  - apply length_prod.
  - intros a b. apply in_prod_iff.
Qed.

(** ** INITIAL_STATE *)

Lemma simpleHash_range (s : string) : (0 <= simpleHash s < 2 ^ 32)%Z.
Proof.
  unfold simpleHash, ToUint32. apply Z.mod_pos_bound. lia.
Qed.

Lemma ABC_at_letter (k : Z) :
  (0 <= k < ABC_length)%Z ->
  exists c, ABC_at k = String c EmptyString /\ isUpperLetter c = true.
Proof.
  intros Hk. unfold ABC_at. change ABC_length with 26%Z in Hk.
  assert (Hn : (Z.to_nat k < 26)%nat) by lia.
  destruct (Z.to_nat k) as [| n]; [eexists; split; reflexivity|].
  do 25 (destruct n as [| n]; [eexists; split; reflexivity|]).
  lia.
Qed.

Lemma INITIAL_STATE_alien_letter (seed : string) (a : Alien) :
  In a (aliens (INITIAL_STATE seed)) ->
  exists c, alien_character a = String c EmptyString /\
            isUpperLetter c = true.
Proof.
  intros Hin. unfold INITIAL_STATE in Hin. cbn [aliens] in Hin.
  apply in_map_iff in Hin. destruct Hin as ([i j] & <- & _).
  cbn [alien_character]. apply ABC_at_letter.
  apply Z.mod_pos_bound. reflexivity.
Qed.

(** Whatever the seed, every alien of the initial world carries one letter
    of the alphabet: the index into ABC is never out of range. *)
Theorem INITIAL_STATE_alien_characters (seed : string) (a : Alien) :
  In a (aliens (INITIAL_STATE seed)) ->
  exists c, alien_character a = String c EmptyString /\
            isUpperLetter c = true.
Proof. exact (INITIAL_STATE_alien_letter seed a). Qed.

(** The seed only chooses the letters: two initial worlds agree on every
    field and on the position and size of every alien, row by row. *)
Theorem INITIAL_STATE_seed_only_letters (seed seed' : string) :
  map (fun a => (alien_pos a, alien_width a, alien_height a))
      (aliens (INITIAL_STATE seed))
  = map (fun a => (alien_pos a, alien_width a, alien_height a))
        (aliens (INITIAL_STATE seed')) /\
  with_aliens (INITIAL_STATE seed) [] = with_aliens (INITIAL_STATE seed') [] /\
  List.length (aliens (INITIAL_STATE seed)) = (ALIEN_ROWS * ALIEN_COLS)%nat /\
  List.length (shields (INITIAL_STATE seed)) = SHIELD_COUNT.
Proof.
  repeat split.
Qed.

(** ** The input reducer *)

Lemma latestInput_fold (l : list Input) (acc : Input) :
  let r := fold_left
             (fun prev cur =>
                {| mouse := match mouse cur with
                            | Some m => Some m
                            | None => mouse prev
                            end;
                   keyboard := match keyboard cur with
                               | Some k => Some k
                               | None => keyboard prev
                               end |}) l acc in
  mouse r = match lastSome (map mouse l) with
            | Some m => Some m
            | None => mouse acc
            end /\
  keyboard r = match lastSome (map keyboard l) with
               | Some k => Some k
               | None => keyboard acc
               end.
Proof.
  revert acc. induction l as [| i l IH]; intros acc; simpl.
  - split; reflexivity.
  - specialize (IH {| mouse := match mouse i with
                               | Some m => Some m
                               | None => mouse acc
                               end;
                      keyboard := match keyboard i with
                                  | Some k => Some k
                                  | None => keyboard acc
                                  end |}).
    simpl in IH. destruct IH as [IHm IHk]. rewrite IHm, IHk.
    split.
    + destruct (lastSome (map mouse l)); [reflexivity|].
      destruct (mouse i); reflexivity.
    + destruct (lastSome (map keyboard l)); [reflexivity|].
      destruct (keyboard i); reflexivity.
Qed.

Lemma lastSome_none {A : Type} (l : list (option A)) :
  (forall o, In o l -> o = None) -> lastSome l = None.
Proof.
  induction l as [| o l IH]; intros Hall; simpl; [reflexivity|].
  rewrite IH by (intros o' Ho'; apply Hall; now right).
  apply Hall. now left.
Qed.

Lemma lastSome_app {A : Type} (l1 l2 : list (option A)) (a : A) :
  (forall o, In o l2 -> o = None) ->
  lastSome (l1 ++ Some a :: l2) = Some a.
Proof.
  intros Hall. induction l1 as [| o l1 IH]; simpl.
  - now rewrite lastSome_none.
  - now rewrite IH.
Qed.

(** The reducer of the input stream hands the transition the latest mouse
    sample and the latest key of the frame, each on its own: a property is
    absent only when no buffered input has it, and otherwise is that of the
    last input that has it, whatever the other property of that input. *)
Theorem latestInput_latest (buffered : list Input) :
  ((forall i, In i buffered -> mouse i = None) ->
   mouse (latestInput buffered) = None) /\
  ((forall i, In i buffered -> keyboard i = None) ->
   keyboard (latestInput buffered) = None) /\
  (forall l1 i l2 m,
      buffered = (l1 ++ i :: l2)%list -> mouse i = Some m ->
      (forall j, In j l2 -> mouse j = None) ->
      mouse (latestInput buffered) = Some m) /\
  (forall l1 i l2 k,
      buffered = (l1 ++ i :: l2)%list -> keyboard i = Some k ->
      (forall j, In j l2 -> keyboard j = None) ->
      keyboard (latestInput buffered) = Some k).
Proof.
  destruct (latestInput_fold buffered {| mouse := None; keyboard := None |})
    as [Hm Hk]. fold (latestInput buffered) in Hm, Hk. simpl in Hm, Hk.
  split; [|split; [|split]].
  - intros Hall. rewrite Hm, lastSome_none; [reflexivity|].
    intros o Ho. apply in_map_iff in Ho. destruct Ho as (i & <- & Hi).
    now apply Hall.
  - intros Hall. rewrite Hk, lastSome_none; [reflexivity|].
    intros o Ho. apply in_map_iff in Ho. destruct Ho as (i & <- & Hi).
    now apply Hall.
  - intros l1 i l2 m -> Hi Hall. rewrite Hm, map_app. simpl map.
    rewrite Hi, lastSome_app; [reflexivity|].
    intros o Ho. apply in_map_iff in Ho. destruct Ho as (j & <- & Hj).
    now apply Hall.
  - intros l1 i l2 k -> Hi Hall. rewrite Hk, map_app. simpl map.
    rewrite Hi, lastSome_app; [reflexivity|].
    intros o Ho. apply in_map_iff in Ho. destruct Ho as (j & <- & Hj).
    now apply Hall.
Qed.

(** ** The game-over message *)

Lemma String_of_number_round_trip (n : Z) :
  number_of_String (String_of_number n) = Some n.
Proof.
  unfold number_of_String, String_of_number.
  rewrite NilZero.isi.
  - cbn [option_map]. now rewrite DecimalZ.of_to.
  - destruct n as [| p | p]; try discriminate.
    simpl. intros [= E]. now apply DecimalPos.Unsigned.to_uint_nonnil in E.
  - destruct n as [| p | p]; try discriminate.
    simpl. intros [= E]. now apply DecimalPos.Unsigned.to_uint_nonnil in E.
Qed.

Lemma length_append (s t : string) :
  String.length (s ++ t) = (String.length s + String.length t)%nat.
Proof.
  induction s as [| c s IH]; simpl; [reflexivity | now rewrite IH].
Qed.

Lemma append_cancel_r (s1 s2 t : string) :
  s1 ++ t = s2 ++ t -> s1 = s2.
Proof.
  intros E.
  assert (L : String.length s1 = String.length s2).
  { apply (f_equal String.length) in E.
    rewrite !length_append in E. lia. }
  revert s2 E L. induction s1 as [| c s1 IH]; intros [| c' s2] E L;
    try discriminate L; [reflexivity|].
  simpl in E. injection E as -> E. f_equal. apply IH; [exact E|].
  simpl in L. lia.
Qed.

Lemma append_cancel_l (s t1 t2 : string) :
  s ++ t1 = s ++ t2 -> t1 = t2.
Proof.
  induction s as [| c s IH]; simpl; intros E; [exact E|].
  injection E as E. now apply IH.
Qed.

(** The game-over message determines the score it was built from: the
    numeral reads back as the score, so different scores give different
    messages. *)
Theorem MESSAGE_SCORE_inj (m n : Z) :
  MESSAGE_SCORE m = MESSAGE_SCORE n -> m = n.
Proof.
  unfold MESSAGE_SCORE. intros E.
  apply append_cancel_l, append_cancel_r in E.
  pose proof (String_of_number_round_trip m) as Rm.
  rewrite E, String_of_number_round_trip in Rm. now injection Rm.
Qed.

(** ** movePlayer *)

Lemma movePlayer_cases (s : State) (i : Input) :
  (mouse i = None -> movePlayer s i = s) /\
  (forall m, mouse i = Some m -> width (player s) <= CANVAS_WIDTH ->
     let s' := movePlayer s i in
     let centred :=
       Vec2.x (mouse_pos m) - CANVAS_POS_X - width (player s) / 2 in
     0 <= Vec2.x (pos (player s')) /\
     Vec2.x (pos (player s')) + width (player s') <= CANVAS_WIDTH /\
     (0 <= centred <= CANVAS_WIDTH - width (player s) ->
      Vec2.x (pos (player s')) == centred) /\
     Vec2.y (pos (player s')) = Vec2.y (pos (player s)) /\
     width (player s') = width (player s) /\
     height (player s') = height (player s) /\
     with_player s' (player s) = with_player s (player s)).
Proof.
  split.
  - intros Hm. unfold movePlayer. now rewrite Hm.
  - intros m Hm Hw s' centred. subst s'. unfold movePlayer. rewrite Hm.
    cbn [with_player player pos width height Player_Rectangle player_pos
         player_width player_height Vec2.x Vec2.y] in *.
    fold centred.
    pose proof (Q.le_max_l 0 centred) as M1.
    pose proof (Q.le_min_r (Qmax 0 centred)
                           (CANVAS_WIDTH - player_width (player s))) as M2.
    repeat split.
    + destruct (Q.min_spec (Qmax 0 centred)
                           (CANVAS_WIDTH - player_width (player s)))
        as [[_ E] | [_ E]]; rewrite E; lra.
    + lra.
    + intros [C1 C2].
      rewrite Q.min_l; [apply Q.max_r; exact C1|].
      rewrite Q.max_r; [exact C2 | exact C1].
Qed.

(** Without a mouse sample movePlayer is a no-op.  With one, and a player no
    wider than the canvas, the player ends inside the canvas, centred on the
    cursor whenever that keeps it inside, and only its horizontal position
    changes. *)
Theorem movePlayer_in_canvas (s : State) (i : Input) :
  (mouse i = None -> movePlayer s i = s) /\
  (forall m, mouse i = Some m -> width (player s) <= CANVAS_WIDTH ->
     let s' := movePlayer s i in
     let centred :=
       Vec2.x (mouse_pos m) - CANVAS_POS_X - width (player s) / 2 in
     0 <= Vec2.x (pos (player s')) /\
     Vec2.x (pos (player s')) + width (player s') <= CANVAS_WIDTH /\
     (0 <= centred <= CANVAS_WIDTH - width (player s) ->
      Vec2.x (pos (player s')) == centred) /\
     Vec2.y (pos (player s')) = Vec2.y (pos (player s)) /\
     width (player s') = width (player s) /\
     height (player s') = height (player s) /\
     with_player s' (player s) = with_player s (player s)).
Proof. exact (movePlayer_cases s i). Qed.

(** ** playerBulletCollision *)

Lemma playerBulletCollision_cases (s : State) (i : Input) :
  ((forall b, In b (bullets s) -> shooter b = ALIEN ->
              rectangleRectangleCollide (player s) b = false) ->
   playerBulletCollision s i = s) /\
  ((exists b, In b (bullets s) /\ shooter b = ALIEN /\
              rectangleRectangleCollide (player s) b = true) ->
   playerBulletCollision s i
   = with_message (with_gameRunning s false) (MESSAGE_SCORE (score s))).
Proof.
  unfold playerBulletCollision.
  destruct (existsb _ (bullets s)) eqn:E; simpl; split; trivial.
  - intros Hall. apply existsb_exists in E. destruct E as (b & Hb & Hc).
    apply andb_true_iff in Hc. destruct Hc as [Hsh Hc].
    rewrite (Hall b Hb) in Hc; [discriminate|].
    destruct (shooter b); [discriminate | reflexivity].
  - intros (b & Hb & Hsh & Hc).
    assert (F : existsb (fun b => negb (BulletShooter_eqb (shooter b) PLAYER)
                                  && rectangleRectangleCollide (player s) b)
                        (bullets s) = true).
    { apply existsb_exists. exists b. split; [exact Hb|].
      now rewrite Hsh, Hc. }
    congruence.
Qed.


(** ** shieldBulletCollision *)

Lemma count_fold_nonneg {A : Type} (c : A -> bool) (l : list A) (z : Q) :
  z <= fold_left (fun (acc : Q) (b : A) => if c b then acc + 1 else acc) l z.
Proof.
  revert z. induction l as [| b l IH]; intros z; simpl; [lra|].
  destruct (c b); [|apply IH].
  apply Qle_trans with (z + 1); [lra | apply IH].
Qed.

Lemma shieldBulletCollision_cases (s : State) (i : Input) :
  let s' := shieldBulletCollision s i in
  (forall sh', In sh' (shields s') ->
     exists sh, In sh (shields s) /\
       Vec2.x (pos sh') = Vec2.x (pos sh) /\ width sh' = width sh /\
       Vec2.y (pos sh) <= Vec2.y (pos sh') /\
       Vec2.y (pos sh') + height sh' <= Vec2.y (pos sh) + height sh /\
       0 < height sh' <= height sh) /\
  (List.length (shields s') <= List.length (shields s))%nat /\
  (forall b, In b (bullets s') <->
     In b (bullets s) /\
     forall sh, In sh (shields s) -> rectangleRectangleCollide sh b = false).
Proof.
  intros s'. subst s'. unfold shieldBulletCollision.
  cbn [with_bullets with_shields shields bullets].
  split; [|split].
  - intros sh' Hin. apply filter_In in Hin. destruct Hin as [Hin Hpos].
    apply Qltb_lt in Hpos. apply in_map_iff in Hin.
    destruct Hin as (sh & <- & Hsh). exists sh. split; [exact Hsh|].
    cbn [pos width height Shield_Rectangle shield_pos shield_width
         shield_height Vec2.x Vec2.y] in *.
    pose proof (count_fold_nonneg
                  (fun b => rectangleRectangleCollide sh b &&
                            BulletShooter_eqb (shooter b) PLAYER)
                  (bullets s) 0) as Hp.
    pose proof (count_fold_nonneg
                  (fun b => rectangleRectangleCollide sh b &&
                            BulletShooter_eqb (shooter b) ALIEN)
                  (bullets s) 0) as Ha.
    cbv beta in Hp, Ha. unfold SHIELD_HEIGHT_REDUCTION in *.
    repeat split; lra.
  - eapply Nat.le_trans; [apply filter_length_le|].
    now rewrite length_map.
  - intros b. rewrite filter_In, negb_true_iff. split.
    + intros [Hb Hnone]. split; [exact Hb|]. intros sh Hsh.
      destruct (rectangleRectangleCollide sh b) eqn:E; [|reflexivity].
      assert (T : existsb (fun s0 => rectangleRectangleCollide s0 b)
                          (shields s) = true)
        by (apply existsb_exists; exists sh; auto).
      congruence.
    + intros [Hb Hall]. split; [exact Hb|].
      destruct (existsb _ (shields s)) eqn:E; [|reflexivity].
      apply existsb_exists in E. destruct E as (sh & Hsh & Hc).
      rewrite (Hall sh Hsh) in Hc. discriminate.
Qed.

(** Shields only wear away: every shield left by the stage comes from a
    shield it received, with the same horizontal position and width, a top
    edge no higher, a bottom edge no lower and a height that is positive and
    no larger; no shield is added.  A bullet is kept exactly when it overlaps
    no shield of the state the stage received. *)
Theorem shieldBulletCollision_wears (s : State) (i : Input) :
  let s' := shieldBulletCollision s i in
  (forall sh', In sh' (shields s') ->
     exists sh, In sh (shields s) /\
       Vec2.x (pos sh') = Vec2.x (pos sh) /\ width sh' = width sh /\
       Vec2.y (pos sh) <= Vec2.y (pos sh') /\
       Vec2.y (pos sh') + height sh' <= Vec2.y (pos sh) + height sh /\
       0 < height sh' <= height sh) /\
  (List.length (shields s') <= List.length (shields s))%nat /\
  (forall b, In b (bullets s') <->
     In b (bullets s) /\
     forall sh, In sh (shields s) -> rectangleRectangleCollide sh b = false).
Proof. exact (shieldBulletCollision_cases s i). Qed.

(** ** More invariants of the reachable states *)

(** A property every stage keeps holds after any run of stages. *)
Lemma stateAt_keeps (P : State -> Prop) :
  (forall t s i, In t stages -> P s -> P (t s i)) ->
  forall n s i, P s -> P (stateAt n s i).
Proof.
  intros Hstage n s i. unfold stateAt.
  assert (Hincl : incl (firstn n stages) stages).
  { intros t Ht. rewrite <- (firstn_skipn n stages). apply in_or_app.
    now left. }
  revert s Hincl. induction (firstn n stages) as [| t ts IH];
    intros s Hincl Hs; simpl; [exact Hs|].
  apply IH.
  - intros t' Ht'. apply Hincl. now right.
  - apply Hstage; [apply Hincl; now left | exact Hs].
Qed.

Lemma transition_running_last (s : State) (i : Input) :
  gameRunning s = true ->
  transition s i = ammoRegen (noMoreAliens (stateAt 10 s i) i) i.
Proof.
  intros Hrun. unfold transition. rewrite Hrun. reflexivity.
Qed.

Lemma stage_player_on_canvas (t : State -> Input -> State) (s : State)
    (i : Input) :
  In t stages ->
  player_width (player s) = PLAYER_WIDTH ->
  player_width (player (t s i)) = PLAYER_WIDTH /\
  player_height (player (t s i)) = player_height (player s) /\
  Vec2.y (player_pos (player (t s i))) = Vec2.y (player_pos (player s)) /\
  (0 <= Vec2.x (player_pos (player s)) <= CANVAS_WIDTH - PLAYER_WIDTH ->
   0 <= Vec2.x (player_pos (player (t s i))) <= CANVAS_WIDTH - PLAYER_WIDTH).
Proof.
  intros Ht Hw. each_stage Ht.
  3: { destruct (movePlayer_cases s i) as [Hnone Hsome].
       destruct (mouse i) as [m|] eqn:Hm.
       - specialize (Hsome m eq_refl). cbv zeta in Hsome.
         simpl width in Hsome. rewrite Hw in Hsome.
         destruct Hsome as (X1 & X2 & _ & Y & W & Hh & _);
           [discriminate|].
         simpl in Y, W, Hh, X1, X2. rewrite W in X2.
         repeat split; trivial; lra.
       - rewrite Hnone by reflexivity. tauto. }
  all: unfold_stage; break_if; simpl; tauto.
Qed.

Lemma stage_playerShape (t : State -> Input -> State) (s : State)
    (i : Input) :
  In t stages -> playerShape s -> playerShape (t s i).
Proof.
  intros Ht (W & Hh & Y & X).
  destruct (stage_player_on_canvas t s i Ht W) as (W' & H' & Y' & X').
  unfold playerShape. rewrite H', Y'. auto.
Qed.

Lemma playerShape_reachable (s : State) : reachable s -> playerShape s.
Proof.
  revert s. apply (reachable_stages_ind playerShape).
  - intros seed b. unfold playerShape. simpl. repeat split; discriminate.
  - intros t s i. apply stage_playerShape.
Qed.

(** In every reachable state the player has its initial size and height on
    the screen and lies within the canvas. *)
Theorem player_stays_on_canvas (s : State) :
  reachable s ->
  width (player s) = PLAYER_WIDTH /\ height (player s) = PLAYER_HEIGHT /\
  Vec2.y (pos (player s)) = Vec2.y PLAYER_POS_INIT /\
  0 <= Vec2.x (pos (player s)) /\
  Vec2.x (pos (player s)) + width (player s) <= CANVAS_WIDTH.
Proof.
  intros Hs. destruct (playerShape_reachable s Hs) as (W & Hh & Y & X).
  simpl. rewrite W. repeat split; trivial; lra.
Qed.

Lemma INITIAL_STATE_alien_grid (seed : string) (a : Alien) :
  In a (aliens (INITIAL_STATE seed)) ->
  alien_width a = ALIEN_WIDTH /\ alien_height a = ALIEN_HEIGHT /\
  10 <= Vec2.x (alien_pos a) <= 330 /\ 10 <= Vec2.y (alien_pos a) <= 154.
Proof.
  intros Hin. unfold INITIAL_STATE in Hin. cbn [aliens] in Hin.
  apply in_map_iff in Hin. destruct Hin as ([i j] & <- & Hij).
  unfold cartesian in Hij. rewrite cartesian_fold in Hij.
  apply in_prod_iff in Hij. destruct Hij as [Hi Hj].
  apply in_seq in Hi, Hj. cbn [alien_width alien_height alien_pos].
  split; [reflexivity|]. split; [reflexivity|].
  assert (Ei : (i = 0 \/ i = 1 \/ i = 2 \/ i = 3)%nat)
    by (unfold ALIEN_ROWS in Hi; lia).
  assert (Ej : (j = 0 \/ j = 1 \/ j = 2 \/ j = 3 \/ j = 4 \/ j = 5)%nat)
    by (unfold ALIEN_COLS in Hj; lia).
  repeat (destruct Ei as [-> | Ei]); try subst i;
    repeat (destruct Ej as [-> | Ej]); try subst j;
    repeat split; discriminate.
Qed.

Lemma stage_aliens_on_canvas (t : State -> Input -> State) (s : State)
    (i : Input) :
  In t stages ->
  (forall a, In a (aliens s) ->
     0 <= Vec2.x (alien_pos a) <= CANVAS_WIDTH - ALIEN_WIDTH /\
     alien_width a = ALIEN_WIDTH /\ alien_height a = ALIEN_HEIGHT) ->
  forall a, In a (aliens (t s i)) ->
     0 <= Vec2.x (alien_pos a) <= CANVAS_WIDTH - ALIEN_WIDTH /\
     alien_width a = ALIEN_WIDTH /\ alien_height a = ALIEN_HEIGHT.
Proof.
  intros Ht Hs. each_stage Ht.
  4: { (* moveAlien *)
    intros a' Hin. unfold moveAlien in Hin.
    pose proof (fold_left_minmax (aliens s) CANVAS_WIDTH 0) as M.
    cbv zeta in M. fold (leftRightMost (aliens s)) in M.
    destruct (leftRightMost (aliens s)) as [l r].
    cbn [fst snd] in M. destruct M as (Hl & Hr & Hall & Hlw & Hrw).
    cbn [with_alienVel with_aliens aliens] in Hin.
    apply in_map_iff in Hin. destruct Hin as (a & <- & Ha).
    cbn [alien_pos alien_width alien_height Vec2.x pos Alien_Rectangle].
    destruct (Hs a Ha) as (Xa & Wa & Ha').
    split; [|split; assumption].
    specialize (Hall a Ha). cbn [pos Alien_Rectangle] in Hall.
    assert (L0 : 0 <= l).
    { destruct Hlw as [-> | (a0 & Ha0 & ->)]; [discriminate|].
      apply (Hs a0 Ha0). }
    assert (R0 : r <= CANVAS_WIDTH - ALIEN_WIDTH).
    { destruct Hrw as [-> | (a0 & Ha0 & ->)]; [discriminate|].
      apply (Hs a0 Ha0). }
    unfold CANVAS_WIDTH, ALIEN_WIDTH in *.
    destruct (Qltb (l + Vec2.x (alienVel s)) 0) eqn:EL.
    - simpl. lra.
    - apply Qltb_ge in EL. unfold Qgtb.
      destruct (Qltb 600 (r + 24 + Vec2.x (alienVel s))) eqn:ER.
      + simpl. lra.
      + apply Qltb_ge in ER. simpl. lra. }
  10: { (* noMoreAliens *)
    intros a Hin. unfold noMoreAliens in Hin.
    destruct (existsb _ (aliens s)); [now apply Hs|].
    cbn [with_alienVel with_aliens aliens] in Hin.
    destruct (INITIAL_STATE_alien_grid _ a Hin) as (W & Hh & X & _).
    unfold CANVAS_WIDTH, ALIEN_WIDTH in *. repeat split; trivial; lra. }
  all: unfold_stage; break_if; simpl; try exact Hs.
  intros a Hin. apply filter_In in Hin. now apply Hs.
Qed.

(** In every reachable state every alien has the alien size and lies within
    the canvas: moveAlien never lets the grid cross a wall. *)
Theorem aliens_stay_on_canvas (s : State) :
  reachable s ->
  forall a, In a (aliens s) ->
    0 <= Vec2.x (pos a) /\ Vec2.x (pos a) + width a <= CANVAS_WIDTH /\
    width a = ALIEN_WIDTH /\ height a = ALIEN_HEIGHT.
Proof.
  intros Hs.
  assert (H : forall a, In a (aliens s) ->
     0 <= Vec2.x (alien_pos a) <= CANVAS_WIDTH - ALIEN_WIDTH /\
     alien_width a = ALIEN_WIDTH /\ alien_height a = ALIEN_HEIGHT).
  { revert s Hs.
    apply (reachable_stages_ind
             (fun s => forall a, In a (aliens s) ->
                0 <= Vec2.x (alien_pos a) <= CANVAS_WIDTH - ALIEN_WIDTH /\
                alien_width a = ALIEN_WIDTH /\
                alien_height a = ALIEN_HEIGHT)).
    - intros seed b a Hin.
      destruct (INITIAL_STATE_alien_grid seed a Hin) as (W & Hh & X & _).
      unfold CANVAS_WIDTH, ALIEN_WIDTH in *. repeat split; trivial; lra.
    - intros t s i. apply stage_aliens_on_canvas. }
  intros a Ha. destruct (H a Ha) as (X & W & Hh). simpl. rewrite W.
  repeat split; trivial; lra.
Qed.

Ltac fields :=
  cbn [with_gameRunning with_level with_player with_aliens with_alienVel
       with_bullets with_shields with_score with_ammo with_ammoRegenTimer
       with_message gameRunning level player aliens alienVel bullets shields
       score ammo ammoRegenTimer message].

Lemma stage_alienVel (t : State -> Input -> State) (s : State) (i : Input) :
  In t stages ->
  0 <= Vec2.y (alienVel s) /\ 1 <= Qabs (Vec2.x (alienVel s)) ->
  0 <= Vec2.y (alienVel (t s i)) /\ 1 <= Qabs (Vec2.x (alienVel (t s i))).
Proof.
  intros Ht [Hy Hx]. each_stage Ht.
  all: unfold_stage; break_if; fields;
    cbn [Vec2.x Vec2.y Vec2.add Vec2.abs ALIEN_VEL_INC];
    try (split; assumption).
  all: first
    [ split; [exact Hy|];
      assert (E : -1 * Vec2.x (alienVel s) == - Vec2.x (alienVel s)) by ring;
      now rewrite E, Qabs_opp
    | pose proof (Qabs_nonneg (Vec2.y (alienVel s)));
      pose proof (Qabs_nonneg (Vec2.x (alienVel s)));
      split; [lra|]; rewrite Qabs_pos; lra ].
Qed.

(** In every reachable state the aliens never move up and move sideways by
    at least one pixel a tick: the vertical velocity is not negative and the
    horizontal one is at least 1 in absolute value. *)
Theorem alienVel_invariant (s : State) :
  reachable s ->
  0 <= Vec2.y (alienVel s) /\ 1 <= Qabs (Vec2.x (alienVel s)).
Proof.
  revert s.
  apply (reachable_stages_ind
           (fun s => 0 <= Vec2.y (alienVel s) /\
                     1 <= Qabs (Vec2.x (alienVel s)))).
  - intros seed b. simpl. split; discriminate.
  - intros t s i. apply stage_alienVel.
Qed.

(** The stages before noMoreAliens never write the level, and none but
    ammoRegen writes the regeneration timer. *)
Lemma stage_keeps_level (t : State -> Input -> State) (s : State) (i : Input) :
  In t [playerShoot; alienShoot; movePlayer; moveAlien; moveBullet;
        removeBullet; playerAlienCollision; playerBulletCollision;
        alienBulletCollision; shieldBulletCollision; ammoRegen] ->
  level (t s i) = level s.
Proof.
  intros Ht. simpl In in Ht.
  repeat (destruct Ht as [<- | Ht]); [.. | contradiction Ht].
  all: unfold_stage; break_if; reflexivity.
Qed.

Lemma stage_keeps_timer (t : State -> Input -> State) (s : State) (i : Input) :
  In t [playerShoot; alienShoot; movePlayer; moveAlien; moveBullet;
        removeBullet; playerAlienCollision; playerBulletCollision;
        alienBulletCollision; shieldBulletCollision; noMoreAliens] ->
  ammoRegenTimer (t s i) = ammoRegenTimer s.
Proof.
  intros Ht. simpl In in Ht.
  repeat (destruct Ht as [<- | Ht]); [.. | contradiction Ht].
  all: unfold_stage; break_if; reflexivity.
Qed.

Lemma stage_keeps_ammo (t : State -> Input -> State) (s : State) (i : Input) :
  In t [alienShoot; movePlayer; moveAlien; moveBullet;
        removeBullet; playerAlienCollision; playerBulletCollision;
        alienBulletCollision; shieldBulletCollision; noMoreAliens] ->
  ammo (t s i) = ammo s.
Proof.
  intros Ht. simpl In in Ht.
  repeat (destruct Ht as [<- | Ht]); [.. | contradiction Ht].
  all: unfold_stage; break_if; reflexivity.
Qed.

Lemma stage_keeps_gameRunning (t : State -> Input -> State) (s : State)
    (i : Input) :
  In t [playerShoot; alienShoot; movePlayer; moveAlien; moveBullet;
        removeBullet; alienBulletCollision; shieldBulletCollision;
        noMoreAliens; ammoRegen] ->
  gameRunning (t s i) = gameRunning s /\ message (t s i) = message s.
Proof.
  intros Ht. simpl In in Ht.
  repeat (destruct Ht as [<- | Ht]); [.. | contradiction Ht].
  all: unfold_stage; break_if; split; reflexivity.
Qed.

Ltac keep_through lemma :=
  unfold stateAt, stages; cbn [firstn fold_left];
  repeat (rewrite lemma; [|simpl; tauto]).

Lemma stateAt_10_level (s : State) (i : Input) :
  level (stateAt 10 s i) = level s.
Proof. keep_through stage_keeps_level. reflexivity. Qed.

Lemma stateAt_10_timer_ammo (s : State) (i : Input) :
  ammoRegenTimer (noMoreAliens (stateAt 10 s i) i) = ammoRegenTimer s /\
  ammo (noMoreAliens (stateAt 10 s i) i) = ammo (playerShoot s i).
Proof.
  split.
  - rewrite stage_keeps_timer by (simpl; tauto).
    keep_through stage_keeps_timer. reflexivity.
  - rewrite stage_keeps_ammo by (simpl; tauto).
    keep_through stage_keeps_ammo. reflexivity.
Qed.

(** In a running tick the level is kept when, after the collisions, some
    alien is at or above the player's bottom edge, and goes up by exactly
    one otherwise: never down, never by more. *)
Theorem transition_level (s : State) (i : Input) :
  gameRunning s = true ->
  ((exists a, In a (aliens (stateAt 10 s i)) /\
              Vec2.y (pos a) <= playerBottom (stateAt 10 s i)) ->
   level (transition s i) = level s) /\
  ((forall a, In a (aliens (stateAt 10 s i)) ->
              Vec2.y (pos a) > playerBottom (stateAt 10 s i)) ->
   level (transition s i) = (level s + 1)%Z) /\
  (level s <= level (transition s i) <= level s + 1)%Z.
Proof.
  intros Hrun. rewrite (transition_running_last s i Hrun).
  rewrite stage_keeps_level by (simpl; tauto).
  pose proof (stateAt_10_level s i) as L.
  destruct (noMoreAliens_cases (stateAt 10 s i) i) as [[Hex Heq] | [Hex Heq]];
    rewrite Heq; unfold nextLevel; cbn [level]; rewrite L.
  - split; [reflexivity|]. split; [|lia].
    intros Hpast. apply aliensExists_iff in Hex.
    destruct Hex as (a & Hin & Hle). specialize (Hpast a Hin). lra.
  - split; [|split; [reflexivity | lia]].
    intros Hsome. apply aliensExists_iff in Hsome. congruence.
Qed.

(** In a running tick the regeneration timer counts down by one while it is
    positive and otherwise restarts at the period, and only then does ammo
    regenerate, on top of what playerShoot left of it, capped at the
    maximum. *)
Theorem transition_ammo_timer (s : State) (i : Input) :
  gameRunning s = true ->
  ((ammoRegenTimer s > 0)%Z ->
   ammoRegenTimer (transition s i) = (ammoRegenTimer s - 1)%Z /\
   ammo (transition s i) = ammo (playerShoot s i)) /\
  ((ammoRegenTimer s <= 0)%Z ->
   ammoRegenTimer (transition s i) = AMMO_REGEN_TIMER /\
   ammo (transition s i)
   = Z.min AMMO_MAX (ammo (playerShoot s i) + AMMO_REGEN_AMOUNT)).
Proof.
  intros Hrun. rewrite (transition_running_last s i Hrun).
  destruct (stateAt_10_timer_ammo s i) as [T A].
  generalize dependent (noMoreAliens (stateAt 10 s i) i). intros s11 T A.
  unfold ammoRegen. rewrite T.
  destruct (ammoRegenTimer s >? 0)%Z eqn:E; fields; rewrite ?T, ?A;
    split; intros H; try lia; split; reflexivity.
Qed.

Lemma stage_level_timer (t : State -> Input -> State) (s : State) (i : Input) :
  In t stages ->
  (1 <= level s)%Z /\ (0 <= ammoRegenTimer s <= AMMO_REGEN_TIMER)%Z ->
  (1 <= level (t s i))%Z /\
  (0 <= ammoRegenTimer (t s i) <= AMMO_REGEN_TIMER)%Z.
Proof.
  intros Ht Hs. change AMMO_REGEN_TIMER with 100%Z in *. each_stage Ht.
  all: unfold_stage; break_if; simpl;
    change AMMO_REGEN_TIMER with 100%Z in *; lia.
Qed.

(** In every reachable state the level is at least 1 and the regeneration
    timer lies between 0 and its period. *)
Theorem level_timer_invariant (s : State) :
  reachable s ->
  (1 <= level s)%Z /\ (0 <= ammoRegenTimer s <= AMMO_REGEN_TIMER)%Z.
Proof.
  revert s.
  apply (reachable_stages_ind
           (fun s => (1 <= level s)%Z /\
                     (0 <= ammoRegenTimer s <= AMMO_REGEN_TIMER)%Z)).
  - intros seed b. simpl. change AMMO_REGEN_TIMER with 100%Z. lia.
  - intros t s i. apply stage_level_timer.
Qed.

(** ** What a tick does to bullets, aliens, the running flag and the score *)

Lemma late_stage_keeps_bullets (t : State -> Input -> State) (s : State)
    (i : Input) (b : Bullet) :
  In t [playerAlienCollision; playerBulletCollision; alienBulletCollision;
        shieldBulletCollision; noMoreAliens; ammoRegen] ->
  In b (bullets (t s i)) -> In b (bullets s).
Proof.
  intros Ht. simpl In in Ht.
  repeat (destruct Ht as [<- | Ht]); [.. | contradiction Ht].
  all: unfold_stage; break_if; fields; trivial.
  all: intros Hin; apply filter_In in Hin; tauto.
Qed.

Lemma transition_running_bullets (s : State) (i : Input) (b : Bullet) :
  gameRunning s = true ->
  In b (bullets (transition s i)) ->
  In b (bullets (stateAt 5 s i)) /\ Vec2.y (pos b) > 0.
Proof.
  intros Hrun Hin. rewrite (transition_running_stages s i Hrun) in Hin.
  do 6 (apply late_stage_keeps_bullets in Hin; [|simpl; tauto]).
  change (stateAt 6 s i) with (removeBullet (stateAt 5 s i) i) in Hin.
  unfold removeBullet in Hin. fields. apply filter_In in Hin.
  destruct Hin as [Hin Hy]. apply Qltb_lt in Hy. auto.
Qed.

Lemma transition_not_running (s : State) (i : Input) :
  gameRunning s = false ->
  transition s i = s \/
  transition s i
  = with_gameRunning (INITIAL_STATE (JSON_stringify_state s)) true.
Proof.
  intros Hrun. unfold transition. rewrite Hrun. simpl.
  destruct (pressedEnter i); auto.
Qed.

(** removeBullet drops the bullets at or above the top edge and no later
    stage moves a bullet, so in every reachable state every bullet is
    strictly below the top edge of the canvas. *)
Theorem bullets_below_top (s : State) :
  reachable s ->
  forall b, In b (bullets s) -> Vec2.y (pos b) > 0.
Proof.
  intros Hs. induction Hs as [| s i Hs IH]; [intros b []|].
  destruct (gameRunning s) eqn:Hrun.
  - intros b Hin. now apply (transition_running_bullets s i b Hrun).
  - destruct (transition_not_running s i Hrun) as [-> | ->];
      [exact IH | intros b []].
Qed.

Lemma noMoreAliens_leaves_alien (s : State) (i : Input) :
  playerShape s ->
  exists a, In a (aliens (noMoreAliens s i)) /\
            Vec2.y (pos a) <= playerBottom (noMoreAliens s i).
Proof.
  intros (_ & Hh & Hy & _).
  destruct (noMoreAliens_cases s i) as [[Hex Heq] | [_ Heq]]; rewrite Heq.
  - now apply aliensExists_iff.
  - unfold nextLevel, playerBottom. fields.
    cbn [pos height Player_Rectangle Alien_Rectangle]. rewrite Hh, Hy.
    destruct (aliens (INITIAL_STATE (JSON_stringify_state s)))
      as [| a l] eqn:E.
    + apply (f_equal (@List.length Alien)) in E.
      rewrite INITIAL_STATE_aliens_length in E. discriminate E.
    + exists a. split; [now left|].
      destruct (INITIAL_STATE_alien_grid (JSON_stringify_state s) a)
        as (_ & _ & _ & Y); [rewrite E; now left|].
      unfold PLAYER_POS_INIT, PLAYER_HEIGHT. cbn [Vec2.y]. lra.
Qed.

Lemma ammoRegen_keeps (s : State) (i : Input) :
  aliens (ammoRegen s i) = aliens s /\ player (ammoRegen s i) = player s.
Proof.
  unfold ammoRegen. destruct (ammoRegenTimer s >? 0)%Z; split; reflexivity.
Qed.

(** The alien collection never runs out: in every reachable state some
    alien is at or above the player's bottom edge, since noMoreAliens brings
    a new grid as soon as none is. *)
Theorem aliens_never_run_out (s : State) :
  reachable s ->
  exists a, In a (aliens s) /\ Vec2.y (pos a) <= playerBottom s.
Proof.
  intros Hs. induction Hs as [| s i Hs IH].
  - eexists. split; [now left | discriminate].
  - destruct (gameRunning s) eqn:Hrun.
    + rewrite (transition_running_last s i Hrun).
      destruct (noMoreAliens_leaves_alien (stateAt 10 s i) i)
        as (a & Ha & Hy).
      { apply stateAt_keeps; [exact stage_playerShape|].
        now apply playerShape_reachable. }
      generalize dependent (noMoreAliens (stateAt 10 s i) i).
      intros s11 Ha Hy. exists a. unfold playerBottom in *.
      destruct (ammoRegen_keeps s11 i) as (EA & EP). rewrite EA, EP. auto.
    + destruct (transition_not_running s i Hrun) as [-> | ->];
        [exact IH|].
      eexists. split; [now left | discriminate].
Qed.

Lemma stateAt_6_running (s : State) (i : Input) :
  gameRunning (stateAt 6 s i) = gameRunning s.
Proof.
  unfold stateAt, stages. cbn [firstn fold_left].
  rewrite (proj1 (stage_keeps_gameRunning removeBullet _ i
                    ltac:(simpl; tauto))).
  rewrite (proj1 (stage_keeps_gameRunning moveBullet _ i
                    ltac:(simpl; tauto))).
  rewrite (proj1 (stage_keeps_gameRunning moveAlien _ i
                    ltac:(simpl; tauto))).
  rewrite (proj1 (stage_keeps_gameRunning movePlayer _ i
                    ltac:(simpl; tauto))).
  rewrite (proj1 (stage_keeps_gameRunning alienShoot _ i
                    ltac:(simpl; tauto))).
  rewrite (proj1 (stage_keeps_gameRunning playerShoot _ i
                    ltac:(simpl; tauto))).
  reflexivity.
Qed.

Lemma player_collisions_keep (t : State -> Input -> State) (s : State)
    (i : Input) :
  In t [playerAlienCollision; playerBulletCollision] ->
  aliens (t s i) = aliens s /\ bullets (t s i) = bullets s /\
  player (t s i) = player s /\ score (t s i) = score s.
Proof.
  intros Ht. simpl In in Ht.
  repeat (destruct Ht as [<- | Ht]); [.. | contradiction Ht].
  all: unfold_stage; break_if; fields; repeat split.
Qed.

(** A running game keeps running through a tick exactly when, after the
    moves of the tick, the player overlaps no alien and no bullet shot by an
    alien; nothing else stops the game. *)
Theorem transition_keeps_running (s : State) (i : Input) :
  gameRunning s = true ->
  (gameRunning (transition s i) = true <->
   (forall a, In a (aliens (stateAt 6 s i)) ->
      rectangleRectangleCollide (player (stateAt 6 s i)) a = false) /\
   (forall b, In b (bullets (stateAt 6 s i)) -> shooter b = ALIEN ->
      rectangleRectangleCollide (player (stateAt 6 s i)) b = false)).
Proof.
  intros Hrun. rewrite (transition_running_stages s i Hrun).
  pose proof (stateAt_6_running s i) as R6. rewrite Hrun in R6.
  set (s6 := stateAt 6 s i) in *.
  destruct (last_stages_keep
              (alienBulletCollision
                 (playerBulletCollision (playerAlienCollision s6 i) i) i) i)
    as (Rf & _). rewrite Rf.
  rewrite (proj1 (stage_keeps_verdict alienBulletCollision _ i
                    ltac:(simpl; tauto))).
  unfold playerAlienCollision.
  destruct (existsb (fun a => rectangleRectangleCollide (player s6) a)
                    (aliens s6)) eqn:EA; cbn [negb].
  - (* an alien is on the player *)
    split.
    + intros H. exfalso. unfold playerBulletCollision in H.
      revert H. break_if; fields; discriminate.
    + intros [HA _]. apply existsb_exists in EA.
      destruct EA as (a & Ha & Hc). rewrite (HA a Ha) in Hc. discriminate.
  - assert (HA : forall a, In a (aliens s6) ->
                   rectangleRectangleCollide (player s6) a = false).
    { intros a Ha.
      destruct (rectangleRectangleCollide (player s6) a) eqn:E;
        [|reflexivity].
      assert (T : existsb (fun a => rectangleRectangleCollide (player s6) a)
                          (aliens s6) = true)
        by (apply existsb_exists; exists a; auto).
      congruence. }
    destruct (playerBulletCollision_cases s6 i) as [Hno Hyes].
    split.
    + intros H. split; [exact HA|]. intros b Hb Hsh.
      destruct (rectangleRectangleCollide (player s6) b) eqn:E;
        [|reflexivity].
      rewrite Hyes in H by (exists b; auto). discriminate H.
    + intros [_ HB]. rewrite Hno; [exact R6 | exact HB].
Qed.

Lemma playerShoot_score (s : State) (i : Input) :
  (score s - SCORE_SHOOT_DECREMENT <= score (playerShoot s i) <= score s)%Z /\
  (keyboard i = None -> score (playerShoot s i) = score s).
Proof.
  unfold playerShoot, SCORE_SHOOT_DECREMENT.
  destruct (keyboard i); [|split; [lia | reflexivity]].
  split; [|discriminate]. break_if; fields; lia.
Qed.

(** The score of a running tick: what playerShoot left, plus the kill
    amounts of all overlapping pairs of an alien and a player bullet after
    the moves of the tick.  A tick costs at most the shoot penalty, and
    nothing without a key press. *)
Theorem transition_score (s : State) (i : Input) :
  gameRunning s = true ->
  score (transition s i)
  = (score (playerShoot s i)
     + sumZ (fun a => sumZ (fun b => pairScore a b)
                           (bullets (stateAt 6 s i)))
            (aliens (stateAt 6 s i)))%Z /\
  (score s - SCORE_SHOOT_DECREMENT <= score (transition s i))%Z /\
  (keyboard i = None -> (score s <= score (transition s i))%Z).
Proof.
  intros Hrun. rewrite (transition_running_stages s i Hrun).
  set (s6 := stateAt 6 s i).
  set (s8 := playerBulletCollision (playerAlienCollision s6 i) i).
  destruct (last_stages_keep (alienBulletCollision s8 i) i) as (_ & _ & Sf).
  rewrite Sf, alienBulletCollision_score.
  assert (E8 : aliens s8 = aliens s6 /\ bullets s8 = bullets s6 /\
               score s8 = score s6).
  { subst s8.
    destruct (player_collisions_keep playerBulletCollision
                (playerAlienCollision s6 i) i ltac:(simpl; tauto))
      as (A & B & _ & S).
    destruct (player_collisions_keep playerAlienCollision s6 i
                ltac:(simpl; tauto)) as (A' & B' & _ & S').
    rewrite A, B, S. auto. }
  destruct E8 as (-> & -> & ->). subst s6. rewrite stateAt_6_score.
  assert (P : (0 <= sumZ (fun a => sumZ (fun b => pairScore a b)
                                        (bullets (stateAt 6 s i)))
                         (aliens (stateAt 6 s i)))%Z).
  { apply sumZ_nonneg. intros a. apply sumZ_nonneg. intros b.
    apply pairScore_nonneg. }
  destruct (playerShoot_score s i) as [[L _] K].
  split; [reflexivity|]. split; [lia|]. intros Hk. rewrite (K Hk). lia.
Qed.

(** ** alienShoot *)

Lemma shoot_threshold (h : Z) :
  Qltb (inject_Z h / inject_Z (2 ^ 32)) ALIEN_SHOOT_PROB = true
  <-> (h <= 4294967)%Z.
Proof.
  rewrite Qltb_lt. unfold Qlt, ALIEN_SHOOT_PROB. simpl. lia.
Qed.

Lemma Forall2_map_image {A B : Type} (R : A -> B -> Prop) (f : A -> B)
    (l : list A) :
  (forall a, In a l -> R a (f a)) -> Forall2 R l (map f l).
Proof.
  induction l as [| a l IH]; intros H; simpl; constructor.
  - apply H. now left.
  - apply IH. intros a' Ha'. apply H. now right.
Qed.

(** alienShoot keeps the bullets it received, in order, and appends exactly
    one bullet for each alien whose hash is at most 4294967, that is below
    2^32 / 1000, in the order of the aliens, and none for the other aliens.
    The bullet of an alien is shot by an alien, of bullet size, moving
    straight down, placed at the lower right of that alien and tagged with
    the letter the hash selects, which is one letter of the alphabet.
    Nothing else changes. *)
Theorem alienShoot_spec (s : State) (i : Input) :
  exists new,
    bullets (alienShoot s i) = (bullets s ++ new)%list /\
    Forall2 (shotBy s)
            (filter (fun a => (shootHash s a <=? 4294967)%Z) (aliens s))
            new /\
    (forall b, In b new ->
       exists c, character b = String c EmptyString /\
                 isUpperLetter c = true) /\
    with_bullets (alienShoot s i) (bullets s) = s.
Proof.
  unfold alienShoot. fold (shootHash s). cbv zeta. fields.
  eexists. split; [reflexivity|]. split; [|split].
  - rewrite (filter_ext
               (fun a => (shootHash s a <=? 4294967)%Z)
               (fun a => Qltb (inject_Z (shootHash s a) / inject_Z (2 ^ 32))
                              ALIEN_SHOOT_PROB)).
    + apply Forall2_map_image. intros a _. repeat split.
    + intros a. symmetry.
      destruct (shootHash s a <=? 4294967)%Z eqn:E.
      * apply shoot_threshold. now apply Z.leb_le.
      * destruct (Qltb _ ALIEN_SHOOT_PROB) eqn:F; [|reflexivity].
        apply shoot_threshold in F. apply Z.leb_gt in E. lia.
  - intros b Hb. apply in_map_iff in Hb. destruct Hb as (a & <- & _).
    cbn [character]. apply ABC_at_letter. apply Z.mod_pos_bound. reflexivity.
  - destruct s; reflexivity.
Qed.

(** ** Letters, shields and the regeneration cycle *)

Lemma stage_alien_letters (t : State -> Input -> State) (s : State)
    (i : Input) :
  In t stages ->
  (forall a, In a (aliens s) ->
     exists c, alien_character a = String c EmptyString /\
               isUpperLetter c = true) ->
  forall a, In a (aliens (t s i)) ->
     exists c, alien_character a = String c EmptyString /\
               isUpperLetter c = true.
Proof.
  intros Ht Hs. each_stage Ht.
  all: unfold_stage; break_if; fields; try exact Hs.
  all: intros a Hin.
  all: try (apply in_map_iff in Hin; destruct Hin as (a0 & <- & Ha0);
            exact (Hs a0 Ha0)).
  - apply filter_In in Hin. now apply Hs.
  - now apply (INITIAL_STATE_alien_letter (JSON_stringify_state s)).
Qed.

(** In every reachable state every alien carries exactly one letter of the
    alphabet. *)
Theorem aliens_carry_letters (s : State) :
  reachable s ->
  forall a, In a (aliens s) ->
    exists c, alien_character a = String c EmptyString /\
              isUpperLetter c = true.
Proof.
  revert s.
  apply (reachable_stages_ind
           (fun s => forall a, In a (aliens s) ->
              exists c, alien_character a = String c EmptyString /\
                        isUpperLetter c = true)).
  - intros seed b a Hin. now apply (INITIAL_STATE_alien_letter seed).
  - intros t s i. apply stage_alien_letters.
Qed.

Lemma stage_shields_band (t : State -> Input -> State) (s : State)
    (i : Input) :
  In t stages ->
  (List.length (shields s) <= SHIELD_COUNT)%nat /\
  (forall sh, In sh (shields s) ->
     shield_width sh = SHIELD_WIDTH /\
     Vec2.y SHIELD_POS <= Vec2.y (shield_pos sh) /\
     Vec2.y (shield_pos sh) + shield_height sh
     <= Vec2.y SHIELD_POS + SHIELD_HEIGHT) ->
  (List.length (shields (t s i)) <= SHIELD_COUNT)%nat /\
  (forall sh, In sh (shields (t s i)) ->
     shield_width sh = SHIELD_WIDTH /\
     Vec2.y SHIELD_POS <= Vec2.y (shield_pos sh) /\
     Vec2.y (shield_pos sh) + shield_height sh
     <= Vec2.y SHIELD_POS + SHIELD_HEIGHT).
Proof.
  intros Ht Hs. each_stage Ht.
  10: { destruct Hs as [Hn Hs].
        destruct (shieldBulletCollision_cases s i) as (Hw & Hlen & _).
        cbv zeta in Hw, Hlen. split; [lia|].
        intros sh' Hin. destruct (Hw sh' Hin) as (sh & Hsh & _ & W & Y & B & _).
        destruct (Hs sh Hsh) as (W0 & Y0 & B0).
        cbn [pos width height Shield_Rectangle] in *.
        rewrite W. split; [exact W0|]. split; lra. }
  all: unfold_stage; break_if; fields; exact Hs.
Qed.

(** In every reachable state there are at most SHIELD_COUNT shields, each of
    the shield width and lying within the band the shields start in: a
    shield never grows, moves sideways or leaves that band. *)
Theorem shields_stay_in_band (s : State) :
  reachable s ->
  (List.length (shields s) <= SHIELD_COUNT)%nat /\
  (forall sh, In sh (shields s) ->
     width sh = SHIELD_WIDTH /\
     Vec2.y SHIELD_POS <= Vec2.y (pos sh) /\
     Vec2.y (pos sh) + height sh <= Vec2.y SHIELD_POS + SHIELD_HEIGHT).
Proof.
  revert s.
  apply (reachable_stages_ind
           (fun s =>
              (List.length (shields s) <= SHIELD_COUNT)%nat /\
              (forall sh, In sh (shields s) ->
                 shield_width sh = SHIELD_WIDTH /\
                 Vec2.y SHIELD_POS <= Vec2.y (shield_pos sh) /\
                 Vec2.y (shield_pos sh) + shield_height sh
                 <= Vec2.y SHIELD_POS + SHIELD_HEIGHT))).
  - intros seed b. split; [apply Nat.le_refl|]. intros sh Hin. simpl in Hin.
    repeat (destruct Hin as [<- | Hin];
            [split; [reflexivity | split; discriminate]|]).
    contradiction Hin.
  - intros t s i. apply stage_shields_band.
Qed.

Lemma ammoRegenTimes_countdown (k : nat) (s : State) (i : Input) :
  (Z.of_nat k <= ammoRegenTimer s)%Z ->
  ammoRegenTimes k s i
  = with_ammoRegenTimer s (ammoRegenTimer s - Z.of_nat k)%Z.
Proof.
  induction k as [| k IH]; intros Hk.
  - unfold ammoRegenTimes, with_ammoRegenTimer. destruct s. simpl.
    now rewrite Z.sub_0_r.
  - change (ammoRegenTimes (S k) s i)
      with (ammoRegen (ammoRegenTimes k s i) i).
    rewrite IH by lia. unfold ammoRegen. fields.
    destruct (ammoRegenTimer s - Z.of_nat k >? 0)%Z eqn:E; [|lia].
    unfold with_ammoRegenTimer. fields. f_equal. lia.
Qed.

(** The regeneration cycle of ammoRegen: from a timer [n >= 0] the first [n]
    applications only count the timer down, and the next one regenerates the
    ammo, capped at the maximum, and restarts the timer.  From a fresh timer
    the ammo therefore regenerates every AMMO_REGEN_TIMER + 1 applications. *)
Theorem ammoRegen_cycle (s : State) (i : Input) :
  (0 <= ammoRegenTimer s)%Z ->
  let n := Z.to_nat (ammoRegenTimer s) in
  (forall k, (k <= n)%nat ->
     ammo (ammoRegenTimes k s i) = ammo s /\
     ammoRegenTimer (ammoRegenTimes k s i)
     = (ammoRegenTimer s - Z.of_nat k)%Z) /\
  ammo (ammoRegenTimes (S n) s i)
  = Z.min AMMO_MAX (ammo s + AMMO_REGEN_AMOUNT) /\
  ammoRegenTimer (ammoRegenTimes (S n) s i) = AMMO_REGEN_TIMER /\
  (ammoRegenTimer s = AMMO_REGEN_TIMER ->
   S n = Z.to_nat (AMMO_REGEN_TIMER + 1)).
Proof.
  intros H0 n. subst n. split; [|split; [|split]].
  - intros k Hk. rewrite ammoRegenTimes_countdown by lia. split; reflexivity.
  - change (ammoRegenTimes (S (Z.to_nat (ammoRegenTimer s))) s i)
      with (ammoRegen (ammoRegenTimes (Z.to_nat (ammoRegenTimer s)) s i) i).
    rewrite ammoRegenTimes_countdown by lia.
    rewrite Z2Nat.id, Z.sub_diag by lia. reflexivity.
  - change (ammoRegenTimes (S (Z.to_nat (ammoRegenTimer s))) s i)
      with (ammoRegen (ammoRegenTimes (Z.to_nat (ammoRegenTimer s)) s i) i).
    rewrite ammoRegenTimes_countdown by lia.
    rewrite Z2Nat.id, Z.sub_diag by lia. reflexivity.
  - intros ->. reflexivity.
Qed.

(** * The game-over message and the life of a bullet *)

Lemma sumZ_pos {A : Type} (f : A -> Z) (l : list A) :
  (forall x, 0 <= f x)%Z -> (exists x, In x l /\ 0 < f x)%Z ->
  (0 < sumZ f l)%Z.
Proof.
  intros Hf (x & Hx & Hpos). induction l as [| y l IH]; [contradiction Hx|].
  simpl. pose proof (sumZ_nonneg f l Hf) as Hl. pose proof (Hf y) as Hy.
  destruct Hx as [-> | Hx]; [lia|]. specialize (IH Hx). lia.
Qed.

Lemma sumZ_zero {A : Type} (f : A -> Z) (l : list A) :
  (forall x, In x l -> f x = 0%Z) -> sumZ f l = 0%Z.
Proof.
  induction l as [| y l IH]; intros H; simpl; [reflexivity|].
  rewrite (H y) by now left. rewrite IH; [reflexivity|].
  intros x Hx. apply H. now right.
Qed.

Lemma pairScore_kills (a : Alien) (b : Bullet) :
  (kills a b -> (0 < pairScore a b)%Z) /\
  (~ kills a b -> pairScore a b = 0%Z).
Proof.
  unfold pairScore, SCORE_ALIEN_KILL_CHAR_MATCH, SCORE_ALIEN_KILL.
  destruct (negb (BulletShooter_eqb (shooter b) ALIEN)
            && rectangleRectangleCollide a b) eqn:E; split; intros H.
  - destruct (String.eqb _ _); lia.
  - apply kills_iff in E. contradiction.
  - apply kills_iff in H. congruence.
  - reflexivity.
Qed.

Lemma transition_running_score (s : State) (i : Input) :
  gameRunning s = true ->
  score (transition s i)
  = (score (stateAt 6 s i)
     + sumZ (fun a => sumZ (fun b => pairScore a b)
                           (bullets (stateAt 6 s i)))
            (aliens (stateAt 6 s i)))%Z.
Proof.
  intros Hrun. rewrite (transition_running_stages s i Hrun).
  set (s6 := stateAt 6 s i).
  set (s8 := playerBulletCollision (playerAlienCollision s6 i) i).
  destruct (last_stages_keep (alienBulletCollision s8 i) i) as (_ & _ & Sf).
  rewrite Sf, alienBulletCollision_score.
  assert (E8 : aliens s8 = aliens s6 /\ bullets s8 = bullets s6 /\
               score s8 = score s6).
  { subst s8.
    destruct (player_collisions_keep playerBulletCollision
                (playerAlienCollision s6 i) i ltac:(simpl; tauto))
      as (A & B & _ & S).
    destruct (player_collisions_keep playerAlienCollision s6 i
                ltac:(simpl; tauto)) as (A' & B' & _ & S').
    rewrite A, B, S. auto. }
  destruct E8 as (-> & -> & ->). reflexivity.
Qed.

Lemma transition_running_verdict (s : State) (i : Input) :
  gameRunning s = true ->
  (exists a, In a (aliens (stateAt 6 s i)) /\
             rectangleRectangleCollide (player (stateAt 6 s i)) a = true) ->
  gameRunning (transition s i) = false /\
  message (transition s i) = MESSAGE_SCORE (score (stateAt 6 s i)).
Proof.
  intros Hrun Hhit. rewrite (transition_running_stages s i Hrun).
  set (s6 := stateAt 6 s i) in *.
  assert (H7 : gameRunning (playerAlienCollision s6 i) = false /\
               message (playerAlienCollision s6 i) = MESSAGE_SCORE (score s6) /\
               score (playerAlienCollision s6 i) = score s6).
  { assert (E : existsb (fun a => rectangleRectangleCollide (player s6) a)
                        (aliens s6) = true)
      by (apply existsb_exists; exact Hhit).
    unfold playerAlienCollision. rewrite E. cbn [negb]. fields. auto. }
  destruct H7 as (R7 & M7 & S7).
  generalize dependent (playerAlienCollision s6 i). intros s7 R7 M7 S7.
  destruct (playerBulletCollision_after_game_over s7 i R7) as (R8 & M8).
  { now rewrite S7. }
  generalize dependent (playerBulletCollision s7 i). intros s8 R8 M8.
  destruct (stage_keeps_verdict alienBulletCollision s8 i
              ltac:(simpl; tauto)) as (R9 & M9).
  generalize dependent (alienBulletCollision s8 i). intros s9 R9 M9.
  destruct (last_stages_keep s9 i) as (Rf & Mf & _).
  rewrite Rf, Mf, R9, M9. split; [exact R8 | now rewrite M8, S7].
Qed.

(** C3 (amended): when the player overlaps an alien in the state that
    playerAlienCollision receives, the tick ends with the game stopped and
    with the game-over message built from the score of that state, which is
    the score playerShoot left.  The score of the final state is that score
    plus the kill amounts of all overlapping pairs of an alien and a bullet
    not shot by an alien in that state: strictly larger when there is such a
    pair, so that alienBulletCollision awards a kill later in the tick, and
    the same when there is none. *)
Theorem transition_player_alien_collision (s : State) (i : Input) :
  gameRunning s = true ->
  (exists a, In a (aliens (stateAt 6 s i)) /\
             rectangleRectangleCollide (player (stateAt 6 s i)) a = true) ->
  gameRunning (transition s i) = false /\
  message (transition s i) = MESSAGE_SCORE (score (stateAt 6 s i)) /\
  score (stateAt 6 s i) = score (playerShoot s i) /\
  score (transition s i)
  = (score (stateAt 6 s i)
     + sumZ (fun a => sumZ (fun b => pairScore a b)
                           (bullets (stateAt 6 s i)))
            (aliens (stateAt 6 s i)))%Z /\
  ((exists a b, In a (aliens (stateAt 6 s i)) /\
                In b (bullets (stateAt 6 s i)) /\ kills a b) ->
   (score (stateAt 6 s i) < score (transition s i))%Z) /\
  ((forall a b, In a (aliens (stateAt 6 s i)) ->
                In b (bullets (stateAt 6 s i)) -> ~ kills a b) ->
   score (transition s i) = score (stateAt 6 s i)) /\
  (score (stateAt 6 s i) <= score (transition s i))%Z.
Proof.
  intros Hrun Hhit.
  destruct (transition_running_verdict s i Hrun Hhit) as (R & M).
  pose proof (transition_running_score s i Hrun) as S.
  split; [exact R|]. split; [exact M|].
  split; [apply stateAt_6_score|]. split; [exact S|].
  rewrite S. split; [|split].
  - intros (a & b & Ha & Hb & Hk).
    assert (0 < sumZ (fun a => sumZ (fun b => pairScore a b)
                                    (bullets (stateAt 6 s i)))
                     (aliens (stateAt 6 s i)))%Z; [|lia].
    apply sumZ_pos.
    + intros a'. apply sumZ_nonneg. intros b'. apply pairScore_nonneg.
    + exists a. split; [exact Ha|]. apply sumZ_pos.
      * intros b'. apply pairScore_nonneg.
      * exists b. split; [exact Hb|]. now apply pairScore_kills.
  - intros Hnone. rewrite sumZ_zero; [lia|].
    intros a Ha. apply sumZ_zero. intros b Hb.
    apply pairScore_kills. now apply Hnone.
  - assert (0 <= sumZ (fun a => sumZ (fun b => pairScore a b)
                                     (bullets (stateAt 6 s i)))
                      (aliens (stateAt 6 s i)))%Z; [|lia].
    apply sumZ_nonneg. intros a. apply sumZ_nonneg. intros b.
    apply pairScore_nonneg.
Qed.

Lemma filter_all {A : Type} (l : list A) : filter (fun _ => true) l = l.
Proof.
  induction l as [| a l IH]; simpl; [reflexivity | now rewrite IH].
Qed.

Lemma shoot_stage_bullets (t : State -> Input -> State) (s : State)
    (i : Input) :
  In t [playerShoot; alienShoot] ->
  exists new, bullets (t s i) = (bullets s ++ new)%list /\
              forall b, In b new -> verticalBullet b.
Proof.
  intros Ht. simpl In in Ht.
  repeat (destruct Ht as [<- | Ht]); [.. | contradiction Ht].
  - unfold playerShoot. break_if; fields.
    1, 2, 4: exists []; split; [now rewrite app_nil_r | intros b []].
    eexists. split; [reflexivity|]. intros b [<- | []]. reflexivity.
  - unfold alienShoot. fields. eexists. split; [reflexivity|].
    intros b Hb. apply in_map_iff in Hb. destruct Hb as (a & <- & _).
    reflexivity.
Qed.

Lemma other_stage_bullets (t : State -> Input -> State) (s : State)
    (i : Input) :
  In t [movePlayer; moveAlien; removeBullet; playerAlienCollision;
        playerBulletCollision; alienBulletCollision; shieldBulletCollision;
        noMoreAliens; ammoRegen] ->
  exists keep, bullets (t s i) = filter keep (bullets s).
Proof.
  intros Ht. simpl In in Ht.
  repeat (destruct Ht as [<- | Ht]); [.. | contradiction Ht].
  all: unfold_stage; break_if; fields.
  all: first [ eexists; reflexivity
             | exists (fun _ => true); now rewrite filter_all ].
Qed.

Lemma stateAt_4_bullets (s : State) (i : Input) :
  bullets (stateAt 4 s i) = bullets (alienShoot (playerShoot s i) i).
Proof.
  unfold stateAt, stages. cbn [firstn fold_left].
  destruct (other_stage_bullets moveAlien
              (movePlayer (alienShoot (playerShoot s i) i) i) i
              ltac:(simpl; tauto)) as (k1 & E1).
  unfold moveAlien, movePlayer. break_if; reflexivity.
Qed.

(** C10: in every reachable state each bullet has the velocity of its
    shooter, straight up at the bullet speed for the player and straight
    down at that speed for an alien, so that one frame later it is at the
    same horizontal position, one bullet speed further up or down.  Whatever
    the state, moveBullet moves each bullet by its own velocity and changes
    nothing else of it; playerShoot and alienShoot keep the bullets they
    received and only append bullets with those velocities; every other
    stage only drops bullets, changing none.  So every bullet left by a
    running tick is a bullet the tick started with, or one shot in its first
    two stages, moved once by its own velocity and otherwise untouched; and
    a stopped tick keeps the bullets or, on a restart, has none. *)
Theorem bullets_vertical (s : State) :
  reachable s ->
  (forall b, In b (bullets s) ->
     vel b = match shooter b with
             | PLAYER => Vec2.new 0 (- BULLET_SPEED)
             | ALIEN => Vec2.new 0 BULLET_SPEED
             end) /\
  (forall b, In b (bullets s) ->
     Vec2.x (pos (advanced b)) == Vec2.x (pos b) /\
     Vec2.y (pos (advanced b)) == Vec2.y (pos b) + shotStep (shooter b)) /\
  (forall s0 i, bullets (moveBullet s0 i) = map advanced (bullets s0)) /\
  (forall s0 i t, In t [playerShoot; alienShoot] ->
     exists new, bullets (t s0 i) = (bullets s0 ++ new)%list /\
                 forall b, In b new -> vel b = shotVelocity (shooter b)) /\
  (forall s0 i t,
     In t [movePlayer; moveAlien; removeBullet; playerAlienCollision;
           playerBulletCollision; alienBulletCollision;
           shieldBulletCollision; noMoreAliens; ammoRegen] ->
     exists keep, bullets (t s0 i) = filter keep (bullets s0)) /\
  (forall i, gameRunning s = true ->
     forall b', In b' (bullets (transition s i)) ->
       exists b, In b (bullets (alienShoot (playerShoot s i) i)) /\
                 b' = advanced b) /\
  (forall i, gameRunning s = false ->
     bullets (transition s i) = bullets s \/ bullets (transition s i) = []).
Proof.
  intros Hs.
  assert (HV : forall b, In b (bullets s) -> verticalBullet b).
  { revert s Hs.
    apply (reachable_stages_ind
             (fun s => forall b, In b (bullets s) -> verticalBullet b)).
    - intros seed b0 b Hin. contradiction Hin.
    - intros t s i. apply stage_bullets_vertical. }
  split; [|split; [|split; [|split; [|split; [|split]]]]].
  - intros b Hb. specialize (HV b Hb). unfold verticalBullet in HV.
    rewrite HV. now destruct (shooter b).
  - intros b Hb. specialize (HV b Hb). unfold verticalBullet in HV.
    unfold advanced. cbn [pos Bullet_Rectangle bullet_pos Vec2.add Vec2.x
                          Vec2.y].
    rewrite HV. destruct (shooter b); cbn [shotVelocity shotStep Vec2.x
                                            Vec2.y]; split; ring.
  - intros s0 i. reflexivity.
  - intros s0 i t Ht. exact (shoot_stage_bullets t s0 i Ht).
  - intros s0 i t Ht. exact (other_stage_bullets t s0 i Ht).
  - intros i Hrun b' Hb'.
    destruct (transition_running_bullets s i b' Hrun Hb') as [H5 _].
    change (stateAt 5 s i) with (moveBullet (stateAt 4 s i) i) in H5.
    unfold moveBullet in H5. fields. rewrite stateAt_4_bullets in H5.
    apply in_map_iff in H5. destruct H5 as (b & <- & Hb).
    exists b. split; [exact Hb | reflexivity].
  - intros i Hrun.
    destruct (transition_not_running s i Hrun) as [-> | ->]; auto.
Qed.

End Transition.

(** ** Examples on concrete states *)

(** C1 as stated fails: this running state has one alien, which is below the
    player's bottom edge, and the stage does not return it unchanged. *)
Lemma noMoreAliens_past_player_not_noop :
  gameRunning alien_past_player = true /\
  aliens alien_past_player <> [] /\
  (forall a, In a (aliens alien_past_player) ->
             Vec2.y (pos a) > playerBottom alien_past_player) /\
  noMoreAliens Json.state alien_past_player no_input <> alien_past_player /\
  level (noMoreAliens Json.state alien_past_player no_input) = 2%Z.
Proof.
  split; [reflexivity|]. split; [discriminate|]. split.
  - intros a [<- | []]. reflexivity.
  - split; [|reflexivity].
    intros H. apply (f_equal level) in H. discriminate H.
Qed.

Lemma noMoreAliens_all_past_player_witness :
  (forall a, In a (aliens alien_past_player) ->
             Vec2.y (pos a) > playerBottom alien_past_player) /\
  noMoreAliens Json.state alien_past_player no_input
  = nextLevel Json.state alien_past_player /\
  (exists a, In a (aliens running_world) /\
             Vec2.y (pos a) <= playerBottom running_world) /\
  noMoreAliens Json.state running_world no_input = running_world.
Proof.
  assert (H : forall a, In a (aliens alien_past_player) ->
                        Vec2.y (pos a) > playerBottom alien_past_player).
  { intros a [<- | []]. reflexivity. }
  assert (H' : exists a, In a (aliens running_world) /\
                         Vec2.y (pos a) <= playerBottom running_world).
  { eexists. split; [now left | discriminate]. }
  split; [exact H|]. split.
  - exact (proj1 (proj2 (noMoreAliens_all_past_player Json.state
                           alien_past_player no_input) H)).
  - split; [exact H'|].
    exact (proj1 (noMoreAliens_all_past_player Json.state running_world
                    no_input) H').
Defined.

(** C2 as stated fails: the key is the lower-case letter a, which is not an
    upper-case letter, and the stage still fires a bullet, tagged A. *)
Lemma playerShoot_lowercase_key_shoots :
  keyboard (key_input "a") = Some {| key := "a" |} /\
  isUpperLetter "a"%char = false /\
  (ammo running_world > 0)%Z /\
  playerShoot toUpperCase_ASCII running_world (key_input "a")
  <> running_world /\
  ammo (playerShoot toUpperCase_ASCII running_world (key_input "a")) = 19%Z /\
  map character
      (bullets (playerShoot toUpperCase_ASCII running_world (key_input "a")))
  = ["A"].
Proof.
  split; [reflexivity|]. split; [reflexivity|]. split; [reflexivity|].
  split; [|split; reflexivity].
  intros H. apply (f_equal ammo) in H. discriminate H.
Qed.

Lemma playerShoot_spec_witness :
  (forall k, isASCII k = true -> toUpperCase_ASCII k = toUpperCase_ASCII k) /\
  keyboard (key_input "a") = Some {| key := "a" |} /\
  isLetter "a"%char = true /\ (ammo running_world > 0)%Z /\
  bullets (playerShoot toUpperCase_ASCII running_world (key_input "a"))
  = [playerBullet (player running_world) "A"] /\
  toUpperCase_ASCII "A" = "A" /\ isUpperLetter "A"%char = true /\
  ammo (playerShoot toUpperCase_ASCII running_world (key_input "A")) = 19%Z /\
  keyboard no_input = None /\
  playerShoot toUpperCase_ASCII running_world no_input = running_world /\
  includes ABC (toUpperCase_ASCII "Enter") = false /\
  playerShoot toUpperCase_ASCII running_world (key_input "Enter")
  = running_world /\
  isASCII "1" = true /\ isLetter "1"%char = false /\
  playerShoot toUpperCase_ASCII running_world (key_input "1")
  = running_world /\
  (ammo (with_ammo running_world 0) <= 0)%Z /\
  playerShoot toUpperCase_ASCII (with_ammo running_world 0) (key_input "A")
  = with_ammo running_world 0.
Proof.
  assert (HA : forall k, isASCII k = true ->
                         toUpperCase_ASCII k = toUpperCase_ASCII k)
    by reflexivity.
  split; [exact HA|].
  split; [reflexivity|]. split; [reflexivity|]. split; [reflexivity|].
  split.
  { destruct (playerShoot_spec toUpperCase_ASCII running_world
                (key_input "a")) as (_ & _ & _ & _ & H).
    destruct (H HA) as [H1 _].
    destruct (H1 {| key := "a" |} "a"%char eq_refl eq_refl eq_refl)
      as (_ & _ & H2).
    exact (H2 eq_refl). }
  split; [reflexivity|]. split; [reflexivity|]. split.
  { destruct (playerShoot_spec toUpperCase_ASCII running_world
                (key_input "A")) as (_ & _ & _ & H & _).
    specialize (H {| key := "A" |} "A"%char eq_refl eq_refl eq_refl eq_refl).
    cbv zeta in H. exact (proj1 (proj2 H)). }
  split; [reflexivity|]. split.
  { destruct (playerShoot_spec toUpperCase_ASCII running_world no_input)
      as (H & _).
    exact (H eq_refl). }
  split; [reflexivity|]. split.
  { destruct (playerShoot_spec toUpperCase_ASCII running_world
                (key_input "Enter")) as (_ & H & _).
    exact (H {| key := "Enter" |} eq_refl eq_refl). }
  split; [reflexivity|]. split; [reflexivity|]. split.
  { destruct (playerShoot_spec toUpperCase_ASCII running_world
                (key_input "1")) as (_ & _ & _ & _ & H).
    destruct (H HA) as [_ H2].
    exact (H2 {| key := "1" |} "1"%char eq_refl eq_refl eq_refl eq_refl). }
  split; [discriminate|].
  destruct (playerShoot_spec toUpperCase_ASCII (with_ammo running_world 0)
              (key_input "A")) as (_ & _ & H & _).
  apply H. discriminate.
Defined.


Lemma noMoreAliens_cleared_witness :
  aliens aliens_cleared = [] /\
  level (noMoreAliens Json.state aliens_cleared no_input) = 2%Z /\
  List.length (aliens (noMoreAliens Json.state aliens_cleared no_input)) = 24%nat.
Proof.
  split; [reflexivity|].
  pose proof (noMoreAliens_cleared Json.state aliens_cleared no_input eq_refl)
    as H.
  cbv zeta in H. destruct H as (Hl & _ & Hn & _).
  split; [exact Hl | exact Hn].
Defined.

Lemma after_shot_reachable :
  reachable 0 Json.state Json.alien toUpperCase_ASCII (after_shot 0 Json.state Json.alien toUpperCase_ASCII).
Proof.
  unfold after_shot, started. do 2 apply reachable_step. apply reachable_init.
Defined.

Lemma ammo_bounds_witness :
  reachable 0 Json.state Json.alien toUpperCase_ASCII (after_shot 0 Json.state Json.alien toUpperCase_ASCII) /\
  (0 <= ammo (after_shot 0 Json.state Json.alien toUpperCase_ASCII) <= AMMO_MAX)%Z.
Proof.
  split; [exact after_shot_reachable|].
  exact (proj1 (ammo_bounds 0 Json.state Json.alien toUpperCase_ASCII _ after_shot_reachable)).
Defined.

Lemma shields_positive_witness :
  reachable 0 Json.state Json.alien toUpperCase_ASCII (after_shot 0 Json.state Json.alien toUpperCase_ASCII) /\
  (forall sh, In sh (shields (after_shot 0 Json.state Json.alien toUpperCase_ASCII)) ->
              height sh > 0).
Proof.
  split; [exact after_shot_reachable|].
  exact (proj1 (shields_positive 0 Json.state Json.alien toUpperCase_ASCII _
                  after_shot_reachable)).
Defined.

Lemma bullets_vertical_witness :
  reachable 0 Json.state Json.alien toUpperCase_ASCII
            (after_shot 0 Json.state Json.alien toUpperCase_ASCII) /\
  (forall b,
     In b (bullets (after_shot 0 Json.state Json.alien toUpperCase_ASCII)) ->
     vel b = match shooter b with
             | PLAYER => Vec2.new 0 (- BULLET_SPEED)
             | ALIEN => Vec2.new 0 BULLET_SPEED
             end) /\
  (forall b,
     In b (bullets (after_shot 0 Json.state Json.alien toUpperCase_ASCII)) ->
     Vec2.x (pos (advanced b)) == Vec2.x (pos b) /\
     Vec2.y (pos (advanced b)) == Vec2.y (pos b) + shotStep (shooter b)).
Proof.
  split; [exact after_shot_reachable|].
  destruct (bullets_vertical 0 Json.state Json.alien toUpperCase_ASCII _
              after_shot_reachable) as (H1 & H2 & _).
  split; [exact H1 | exact H2].
Defined.

(** C3 as stated fails: in this tick the alien moves onto the player, so the
    game stops with the message built from the score 0 of that moment, and
    the player's bullet then kills the alien, so the final score is 100. *)
Lemma transition_game_over_message_not_final_score :
  gameRunning game_over_with_kill = true /\
  (exists a,
      In a (aliens (stateAt 0 Json.state Json.alien toUpperCase_ASCII 6 game_over_with_kill
                            no_input)) /\
      rectangleRectangleCollide
        (player (stateAt 0 Json.state Json.alien toUpperCase_ASCII 6 game_over_with_kill
                         no_input)) a = true) /\
  gameRunning (transition 0 Json.state Json.alien toUpperCase_ASCII game_over_with_kill no_input)
  = false /\
  score (transition 0 Json.state Json.alien toUpperCase_ASCII game_over_with_kill no_input)
  = 100%Z /\
  message (transition 0 Json.state Json.alien toUpperCase_ASCII game_over_with_kill no_input)
  = MESSAGE_SCORE 0 /\
  message (transition 0 Json.state Json.alien toUpperCase_ASCII game_over_with_kill no_input)
  <> MESSAGE_SCORE
       (score (transition 0 Json.state Json.alien toUpperCase_ASCII game_over_with_kill
                          no_input)).
Proof.
  split; [reflexivity|]. split.
  { exists {| alien_pos := Vec2.new 271 530; alien_width := ALIEN_WIDTH;
              alien_height := ALIEN_HEIGHT; alien_character := "B" |}.
    split; [vm_compute; now left | vm_compute; reflexivity]. }
  split; [vm_compute; reflexivity|]. split; [vm_compute; reflexivity|].
  split; [vm_compute; reflexivity|].
  intros H. vm_compute in H. discriminate H.
Qed.

Lemma transition_player_alien_collision_witness :
  gameRunning game_over_with_kill = true /\
  (exists a,
      In a (aliens (stateAt 0 Json.state Json.alien toUpperCase_ASCII 6
                            game_over_with_kill no_input)) /\
      rectangleRectangleCollide
        (player (stateAt 0 Json.state Json.alien toUpperCase_ASCII 6
                         game_over_with_kill no_input)) a = true) /\
  (exists a b,
      In a (aliens (stateAt 0 Json.state Json.alien toUpperCase_ASCII 6
                            game_over_with_kill no_input)) /\
      In b (bullets (stateAt 0 Json.state Json.alien toUpperCase_ASCII 6
                             game_over_with_kill no_input)) /\
      kills a b) /\
  gameRunning (transition 0 Json.state Json.alien toUpperCase_ASCII
                          game_over_with_kill no_input)
  = false /\
  message (transition 0 Json.state Json.alien toUpperCase_ASCII
                      game_over_with_kill no_input)
  = MESSAGE_SCORE
      (score (stateAt 0 Json.state Json.alien toUpperCase_ASCII 6
                      game_over_with_kill no_input)) /\
  (score (stateAt 0 Json.state Json.alien toUpperCase_ASCII 6
                  game_over_with_kill no_input)
   < score (transition 0 Json.state Json.alien toUpperCase_ASCII
                       game_over_with_kill no_input))%Z.
Proof.
  assert (Hhit : exists a,
      In a (aliens (stateAt 0 Json.state Json.alien toUpperCase_ASCII 6
                            game_over_with_kill no_input)) /\
      rectangleRectangleCollide
        (player (stateAt 0 Json.state Json.alien toUpperCase_ASCII 6
                         game_over_with_kill no_input)) a = true).
  { exists {| alien_pos := Vec2.new 271 530; alien_width := ALIEN_WIDTH;
              alien_height := ALIEN_HEIGHT; alien_character := "B" |}.
    split; [vm_compute; now left | vm_compute; reflexivity]. }
  assert (Hkill : exists a b,
      In a (aliens (stateAt 0 Json.state Json.alien toUpperCase_ASCII 6
                            game_over_with_kill no_input)) /\
      In b (bullets (stateAt 0 Json.state Json.alien toUpperCase_ASCII 6
                             game_over_with_kill no_input)) /\
      kills a b).
  { exists {| alien_pos := Vec2.new 271 530; alien_width := ALIEN_WIDTH;
              alien_height := ALIEN_HEIGHT; alien_character := "B" |},
           {| shooter := PLAYER; bullet_pos := Vec2.new 270 532;
              vel := Vec2.new 0 (-3); bullet_width := BULLET_WIDTH;
              bullet_height := BULLET_HEIGHT; character := "A" |}.
    split; [vm_compute; now left|]. split; [vm_compute; now left|].
    split; [discriminate | vm_compute; reflexivity]. }
  split; [reflexivity|]. split; [exact Hhit|]. split; [exact Hkill|].
  destruct (transition_player_alien_collision 0 Json.state Json.alien
              toUpperCase_ASCII game_over_with_kill no_input eq_refl Hhit)
    as (Hr & Hm & _ & _ & Hlt & _).
  split; [exact Hr|]. split; [exact Hm | exact (Hlt Hkill)].
Defined.

(** The hypothesis of C4 cannot be dropped, though every state of the game
    meets it, its aliens being on the canvas: here the only alien is at
    x = 700,
    to the right of the canvas, and the velocity -650 takes it to x = 50,
    past neither wall, yet the stage reverses the velocity instead of moving
    the alien by it, because the reduce starts its minimum at the canvas
    width and so does not yield the left-most position its comment names. *)
Lemma moveAlien_off_canvas_bounces :
  aliens alien_off_canvas <> [] /\
  leftmostOf (aliens alien_off_canvas) 700 /\
  rightmostOf (aliens alien_off_canvas) 700 /\
  0 <= 700 + Vec2.x (alienVel alien_off_canvas) /\
  700 + ALIEN_WIDTH + Vec2.x (alienVel alien_off_canvas) <= CANVAS_WIDTH /\
  alienVel (moveAlien alien_off_canvas no_input)
  <> alienVel alien_off_canvas /\
  aliens (moveAlien alien_off_canvas no_input)
  <> map (movedBy (Vec2.x (alienVel alien_off_canvas))
                  (Vec2.y (alienVel alien_off_canvas)))
         (aliens alien_off_canvas).
Proof.
  split; [discriminate|].
  split; [split; [eexists; split; [now left | reflexivity]
                 | intros a [<- | []]; discriminate]|].
  split; [split; [eexists; split; [now left | reflexivity]
                 | intros a [<- | []]; discriminate]|].
  split; [discriminate|]. split; [discriminate|].
  split; intros H; vm_compute in H; discriminate H.
Qed.

Lemma moveAlien_spec_witness :
  (exists a, In a (aliens grid_at_left_wall) /\
             Vec2.x (pos a) <= CANVAS_WIDTH) /\
  (exists a, In a (aliens grid_at_left_wall) /\ 0 <= Vec2.x (pos a)) /\
  exists l r,
    leftmostOf (aliens grid_at_left_wall) l /\
    rightmostOf (aliens grid_at_left_wall) r /\
    (l + Vec2.x (alienVel grid_at_left_wall) < 0 ->
     leftmostOf (aliens (moveAlien grid_at_left_wall no_input)) 0).
Proof.
  assert (H1 : exists a, In a (aliens grid_at_left_wall) /\
                         Vec2.x (pos a) <= CANVAS_WIDTH).
  { eexists. split; [left; reflexivity | discriminate]. }
  assert (H2 : exists a, In a (aliens grid_at_left_wall) /\
                         0 <= Vec2.x (pos a)).
  { eexists. split; [left; reflexivity | discriminate]. }
  split; [exact H1|]. split; [exact H2|].
  destruct (moveAlien_spec grid_at_left_wall no_input H1 H2)
    as (l & r & HL & HR & Hleft & _).
  exists l, r. split; [exact HL|]. split; [exact HR|].
  intros Hhit. exact (proj2 (proj2 (proj2 (Hleft Hhit)))).
Defined.

Lemma alienBulletCollision_spec_witness :
  score (alienBulletCollision two_aliens_one_bullet no_input)
  = (score two_aliens_one_bullet
     + sumZ (fun a => sumZ (fun b => pairScore a b)
                           (bullets two_aliens_one_bullet))
            (aliens two_aliens_one_bullet))%Z.
Proof.
  pose proof (alienBulletCollision_spec two_aliens_one_bullet no_input) as H.
  cbv zeta in H. destruct H as (_ & _ & H & _). exact H.
Defined.

(** ** Examples for the further properties *)


Lemma INITIAL_STATE_alien_characters_witness :
  In {| alien_pos := Vec2.new 10 10; alien_width := ALIEN_WIDTH;
        alien_height := ALIEN_HEIGHT; alien_character := "Y" |}
     (aliens (INITIAL_STATE EmptyString)) /\
  exists c, "Y" = String c EmptyString /\ isUpperLetter c = true.
Proof.
  assert (H : In {| alien_pos := Vec2.new 10 10; alien_width := ALIEN_WIDTH;
                    alien_height := ALIEN_HEIGHT; alien_character := "Y" |}
                 (aliens (INITIAL_STATE EmptyString)))
    by (vm_compute; now left).
  split; [exact H|].
  exact (INITIAL_STATE_alien_characters EmptyString _ H).
Defined.

Lemma latestInput_latest_witness :
  mouse (latestInput buffered_frame)
  = Some {| mouse_pos := Vec2.new 300 200 |} /\
  keyboard (latestInput buffered_frame) = Some {| key := "b" |} /\
  mouse (latestInput [key_input "a"]) = None.
Proof.
  split; [|split].
  - destruct (latestInput_latest buffered_frame) as (_ & _ & H & _).
    apply (H [] {| mouse := Some {| mouse_pos := Vec2.new 300 200 |};
                   keyboard := None |}
             [key_input "a"; key_input "b"]); [reflexivity | reflexivity|].
    intros j [<- | [<- | []]]; reflexivity.
  - destruct (latestInput_latest buffered_frame) as (_ & _ & _ & H).
    apply (H [ {| mouse := Some {| mouse_pos := Vec2.new 300 200 |};
                  keyboard := None |}; key_input "a" ]
             (key_input "b") []); [reflexivity | reflexivity|].
    intros j [].
  - destruct (latestInput_latest [key_input "a"]) as (H & _).
    apply H. intros j [<- | []]. reflexivity.
Defined.

Lemma MESSAGE_SCORE_inj_witness :
  MESSAGE_SCORE (score stopped_world) = message stopped_world /\
  score stopped_world = 380%Z.
Proof.
  assert (H : MESSAGE_SCORE (score stopped_world) = MESSAGE_SCORE 380)
    by reflexivity.
  split; [reflexivity|].
  exact (MESSAGE_SCORE_inj (score stopped_world) 380 H).
Defined.

Lemma movePlayer_in_canvas_witness :
  mouse {| mouse := Some {| mouse_pos := Vec2.new 1000 0 |};
           keyboard := None |}
  = Some {| mouse_pos := Vec2.new 1000 0 |} /\
  width (player running_world) <= CANVAS_WIDTH /\
  Vec2.x (pos (player (movePlayer 0 running_world
                         {| mouse := Some {| mouse_pos := Vec2.new 1000 0 |};
                            keyboard := None |})))
  + width (player (movePlayer 0 running_world
                     {| mouse := Some {| mouse_pos := Vec2.new 1000 0 |};
                        keyboard := None |}))
  <= CANVAS_WIDTH /\
  movePlayer 0 running_world no_input = running_world.
Proof.
  assert (W : width (player running_world) <= CANVAS_WIDTH) by discriminate.
  split; [reflexivity|]. split; [exact W|]. split.
  - destruct (movePlayer_in_canvas 0 running_world
                {| mouse := Some {| mouse_pos := Vec2.new 1000 0 |};
                   keyboard := None |}) as [_ H].
    specialize (H {| mouse_pos := Vec2.new 1000 0 |} eq_refl W).
    cbv zeta in H. exact (proj1 (proj2 H)).
  - destruct (movePlayer_in_canvas 0 running_world no_input) as [H _].
    exact (H eq_refl).
Defined.


Lemma shieldBulletCollision_wears_witness :
  (List.length (shields (shieldBulletCollision running_world no_input))
   <= List.length (shields running_world))%nat.
Proof.
  pose proof (shieldBulletCollision_wears running_world no_input) as H.
  cbv zeta in H. exact (proj1 (proj2 H)).
Defined.

Lemma player_stays_on_canvas_witness :
  reachable 0 Json.state Json.alien toUpperCase_ASCII (after_shot 0 Json.state Json.alien toUpperCase_ASCII) /\
  width (player (after_shot 0 Json.state Json.alien toUpperCase_ASCII)) = PLAYER_WIDTH.
Proof.
  split; [exact after_shot_reachable|].
  exact (proj1 (player_stays_on_canvas 0 Json.state Json.alien toUpperCase_ASCII _
                  after_shot_reachable)).
Defined.

Lemma aliens_stay_on_canvas_witness :
  reachable 0 Json.state Json.alien toUpperCase_ASCII (INITIAL_STATE EmptyString) /\
  In {| alien_pos := Vec2.new 10 10; alien_width := ALIEN_WIDTH;
        alien_height := ALIEN_HEIGHT; alien_character := "Y" |}
     (aliens (INITIAL_STATE EmptyString)) /\
  (0 <= 10 /\ 10 + ALIEN_WIDTH <= CANVAS_WIDTH /\
   ALIEN_WIDTH = ALIEN_WIDTH /\ ALIEN_HEIGHT = ALIEN_HEIGHT).
Proof.
  assert (H : In {| alien_pos := Vec2.new 10 10; alien_width := ALIEN_WIDTH;
                    alien_height := ALIEN_HEIGHT; alien_character := "Y" |}
                 (aliens (INITIAL_STATE EmptyString)))
    by (vm_compute; now left).
  split; [apply reachable_init|]. split; [exact H|].
  exact (aliens_stay_on_canvas 0 Json.state Json.alien toUpperCase_ASCII _
           (reachable_init 0 Json.state Json.alien toUpperCase_ASCII) _ H).
Defined.

Lemma alienVel_invariant_witness :
  reachable 0 Json.state Json.alien toUpperCase_ASCII (after_shot 0 Json.state Json.alien toUpperCase_ASCII) /\
  0 <= Vec2.y (alienVel (after_shot 0 Json.state Json.alien toUpperCase_ASCII)).
Proof.
  split; [exact after_shot_reachable|].
  exact (proj1 (alienVel_invariant 0 Json.state Json.alien toUpperCase_ASCII _
                  after_shot_reachable)).
Defined.

Lemma transition_level_witness :
  gameRunning aliens_cleared = true /\
  (level aliens_cleared
   <= level (transition 0 Json.state Json.alien toUpperCase_ASCII aliens_cleared no_input)
   <= level aliens_cleared + 1)%Z.
Proof.
  split; [reflexivity|].
  exact (proj2 (proj2 (transition_level 0 Json.state Json.alien toUpperCase_ASCII
                         aliens_cleared no_input eq_refl))).
Defined.

Lemma transition_ammo_timer_witness :
  gameRunning running_world = true /\
  (ammoRegenTimer running_world > 0)%Z /\
  ammoRegenTimer (transition 0 Json.state Json.alien toUpperCase_ASCII running_world no_input)
  = (ammoRegenTimer running_world - 1)%Z /\
  (ammoRegenTimer (with_ammoRegenTimer running_world 0) <= 0)%Z /\
  ammoRegenTimer (transition 0 Json.state Json.alien toUpperCase_ASCII
                    (with_ammoRegenTimer running_world 0) no_input)
  = AMMO_REGEN_TIMER.
Proof.
  split; [reflexivity|]. split; [reflexivity|]. split; [|split].
  - destruct (transition_ammo_timer 0 Json.state Json.alien toUpperCase_ASCII running_world
                no_input eq_refl) as [H _].
    exact (proj1 (H eq_refl)).
  - discriminate.
  - destruct (transition_ammo_timer 0 Json.state Json.alien toUpperCase_ASCII
                (with_ammoRegenTimer running_world 0) no_input eq_refl)
      as [_ H].
    apply H. discriminate.
Defined.

Lemma level_timer_invariant_witness :
  reachable 0 Json.state Json.alien toUpperCase_ASCII (after_shot 0 Json.state Json.alien toUpperCase_ASCII) /\
  (1 <= level (after_shot 0 Json.state Json.alien toUpperCase_ASCII))%Z.
Proof.
  split; [exact after_shot_reachable|].
  exact (proj1 (level_timer_invariant 0 Json.state Json.alien toUpperCase_ASCII _
                  after_shot_reachable)).
Defined.

Lemma bullets_below_top_witness :
  reachable 0 Json.state Json.alien toUpperCase_ASCII (after_shot 0 Json.state Json.alien toUpperCase_ASCII) /\
  forall b, In b (bullets (after_shot 0 Json.state Json.alien toUpperCase_ASCII)) ->
            Vec2.y (pos b) > 0.
Proof.
  split; [exact after_shot_reachable|].
  exact (bullets_below_top 0 Json.state Json.alien toUpperCase_ASCII _ after_shot_reachable).
Defined.

Lemma aliens_never_run_out_witness :
  reachable 0 Json.state Json.alien toUpperCase_ASCII (after_shot 0 Json.state Json.alien toUpperCase_ASCII) /\
  exists a, In a (aliens (after_shot 0 Json.state Json.alien toUpperCase_ASCII)) /\
            Vec2.y (pos a)
            <= playerBottom (after_shot 0 Json.state Json.alien toUpperCase_ASCII).
Proof.
  split; [exact after_shot_reachable|].
  exact (aliens_never_run_out 0 Json.state Json.alien toUpperCase_ASCII _ after_shot_reachable).
Defined.

Lemma transition_keeps_running_witness :
  gameRunning game_over_with_kill = true /\
  (gameRunning (transition 0 Json.state Json.alien toUpperCase_ASCII game_over_with_kill
                           no_input) = true ->
   forall a,
     In a (aliens (stateAt 0 Json.state Json.alien toUpperCase_ASCII 6 game_over_with_kill
                           no_input)) ->
     rectangleRectangleCollide
       (player (stateAt 0 Json.state Json.alien toUpperCase_ASCII 6 game_over_with_kill
                        no_input)) a = false).
Proof.
  split; [reflexivity|]. intros H.
  exact (proj1 (proj1 (transition_keeps_running 0 Json.state Json.alien toUpperCase_ASCII
                         game_over_with_kill no_input eq_refl) H)).
Defined.

Lemma transition_score_witness :
  gameRunning game_over_with_kill = true /\
  (score game_over_with_kill - SCORE_SHOOT_DECREMENT
   <= score (transition 0 Json.state Json.alien toUpperCase_ASCII game_over_with_kill
                        no_input))%Z.
Proof.
  split; [reflexivity|].
  exact (proj1 (proj2 (transition_score 0 Json.state Json.alien toUpperCase_ASCII
                         game_over_with_kill no_input eq_refl))).
Defined.

Lemma aliens_carry_letters_witness :
  reachable 0 Json.state Json.alien toUpperCase_ASCII (INITIAL_STATE EmptyString) /\
  In {| alien_pos := Vec2.new 10 10; alien_width := ALIEN_WIDTH;
        alien_height := ALIEN_HEIGHT; alien_character := "Y" |}
     (aliens (INITIAL_STATE EmptyString)) /\
  exists c, "Y" = String c EmptyString /\ isUpperLetter c = true.
Proof.
  assert (H : In {| alien_pos := Vec2.new 10 10; alien_width := ALIEN_WIDTH;
                    alien_height := ALIEN_HEIGHT; alien_character := "Y" |}
                 (aliens (INITIAL_STATE EmptyString)))
    by (vm_compute; now left).
  split; [apply reachable_init|]. split; [exact H|].
  exact (aliens_carry_letters 0 Json.state Json.alien toUpperCase_ASCII _
           (reachable_init 0 Json.state Json.alien toUpperCase_ASCII) _ H).
Defined.

Lemma shields_stay_in_band_witness :
  reachable 0 Json.state Json.alien toUpperCase_ASCII (after_shot 0 Json.state Json.alien toUpperCase_ASCII) /\
  (List.length (shields (after_shot 0 Json.state Json.alien toUpperCase_ASCII))
   <= SHIELD_COUNT)%nat.
Proof.
  split; [exact after_shot_reachable|].
  exact (proj1 (shields_stay_in_band 0 Json.state Json.alien toUpperCase_ASCII _
                  after_shot_reachable)).
Defined.

Lemma ammoRegen_cycle_witness :
  (0 <= ammoRegenTimer (with_ammo running_world 3))%Z /\
  ammo (ammoRegenTimes 101 (with_ammo running_world 3) no_input) = 7%Z /\
  ammoRegenTimer (ammoRegenTimes 101 (with_ammo running_world 3) no_input)
  = AMMO_REGEN_TIMER.
Proof.
  split; [vm_compute; discriminate|].
  pose proof (ammoRegen_cycle (with_ammo running_world 3) no_input) as H.
  cbv zeta in H. destruct H as (_ & A & T & _); [vm_compute; discriminate|].
  split; [exact A | exact T].
Defined.
